(** * JobScheduler: a shallow embedding of the scheduling engine

    The development follows [JobScheduler.cpp]: the [Job] class, the four
    [Scheduler] implementations (FCFS, SJF, Round Robin, Priority with
    aging), the [Simulator] driver and [UIController::createSimulator].

    Conventions of the embedding.
    - A C++ [int] is a mathematical integer ([Z]).  Signed overflow is
      undefined behaviour in C++, so the model describes the executions in
      which every value stays inside the [int] range.
    - [std::vector<Job>] and [std::queue<Job>] are [list Job]; [push] and
      [push_back] append at the end, [front]/[pop] take the head.
    - Jobs are copied by value everywhere in the source, so there is no
      aliasing to model.
    - [std::sort] is not a stable sort: the standard only promises a sorted
      rearrangement of the range.  It is therefore a parameter [std_sort] of
      the model, constrained by exactly that contract; [insertion_sort] is
      one implementation, used to run the model on concrete inputs.
    - The [while] loop of [Simulator::run] is iterated with fuel. *)

From Stdlib Require Import Ascii.
From Stdlib Require Import String ZArith List Bool Lia Permutation Sorted.
From Stdlib Require Import DecimalString.
From Stdlib Require Decimal DecimalPos DecimalZ.
Import ListNotations.
Open Scope Z_scope.

(** ** Job *)

Record Job : Type := mkJob {
  jobId : Z;
  name : string;
  arrivalTime : Z;
  burstTime : Z;
  priority : Z;
  remainingTime : Z;
  startTime : Z;
  completionTime : Z;
  waitingTime : Z;
  turnaroundTime : Z
}.

(** [std::to_string] on an [int]. *)
Definition to_string (z : Z) : string := NilZero.string_of_int (Z.to_int z).

(** [Job(int id, int arrival, int burst, int prio)]. *)
Definition Job_of_id (id arrival burst prio : Z) : Job :=
  mkJob id ("Job" ++ to_string id) arrival burst prio burst (-1) (-1) 0 0.

(** [Job(const std::string& name, int arrival, int burst, int prio)]. *)
Definition Job_of_name (nm : string) (arrival burst prio : Z) : Job :=
  mkJob (-1) nm arrival burst prio burst (-1) (-1) 0 0.

(** Field assignments. *)
Definition set_jobId (v : Z) (j : Job) : Job :=
  mkJob v (name j) (arrivalTime j) (burstTime j) (priority j)
        (remainingTime j) (startTime j) (completionTime j)
        (waitingTime j) (turnaroundTime j).

Definition set_priority (v : Z) (j : Job) : Job :=
  mkJob (jobId j) (name j) (arrivalTime j) (burstTime j) v
        (remainingTime j) (startTime j) (completionTime j)
        (waitingTime j) (turnaroundTime j).

Definition set_remainingTime (v : Z) (j : Job) : Job :=
  mkJob (jobId j) (name j) (arrivalTime j) (burstTime j) (priority j)
        v (startTime j) (completionTime j)
        (waitingTime j) (turnaroundTime j).

Definition set_startTime (v : Z) (j : Job) : Job :=
  mkJob (jobId j) (name j) (arrivalTime j) (burstTime j) (priority j)
        (remainingTime j) v (completionTime j)
        (waitingTime j) (turnaroundTime j).

Definition set_completionTime (v : Z) (j : Job) : Job :=
  mkJob (jobId j) (name j) (arrivalTime j) (burstTime j) (priority j)
        (remainingTime j) (startTime j) v
        (waitingTime j) (turnaroundTime j).

Definition set_waitingTime (v : Z) (j : Job) : Job :=
  mkJob (jobId j) (name j) (arrivalTime j) (burstTime j) (priority j)
        (remainingTime j) (startTime j) (completionTime j)
        v (turnaroundTime j).

Definition set_turnaroundTime (v : Z) (j : Job) : Job :=
  mkJob (jobId j) (name j) (arrivalTime j) (burstTime j) (priority j)
        (remainingTime j) (startTime j) (completionTime j)
        (waitingTime j) v.

(** [Job::calculateMetrics]: the second assignment reads the turnaround
    time written by the first. *)
Definition calculateMetrics (j : Job) : Job :=
  let j1 := set_turnaroundTime (completionTime j - arrivalTime j) j in
  set_waitingTime (turnaroundTime j1 - burstTime j1) j1.

(** The value every [getNextJob] returns on an empty queue. *)
Definition noJob : Job := Job_of_id (-1) 0 0 0.

(** ** Algorithms of the standard library used by the schedulers *)

(** The comparators of the source are all of the form
    [a.key < b.key]. *)
Definition less_by (key : Job -> Z) (a b : Job) : bool := key a <? key b.

(** [std::min_element]: the position of the first element that no other
    element is smaller than.  [min_element_from] is the loop, with the
    position and value of the smallest element so far and the position of
    the element being visited. *)
Fixpoint min_element_from (comp : Job -> Job -> bool)
    (smallest : nat) (smallestv : Job) (i : nat) (l : list Job) : nat :=
  match l with
  | [] => smallest
  | x :: l' =>
      if comp x smallestv
      then min_element_from comp i x (S i) l'
      else min_element_from comp smallest smallestv (S i) l'
  end.

Definition min_element (comp : Job -> Job -> bool) (l : list Job) : nat :=
  match l with
  | [] => 0%nat
  | x :: l' => min_element_from comp 0%nat x 1%nat l'
  end.

(** [vector::erase] of the element at one position. *)
Definition erase (i : nat) (l : list Job) : list Job :=
  firstn i l ++ skipn (S i) l.

(** An insertion sort, one admissible [std::sort]. *)
Fixpoint insert_sorted (comp : Job -> Job -> bool) (x : Job) (l : list Job)
    : list Job :=
  match l with
  | [] => [x]
  | y :: l' => if comp x y then x :: l else y :: insert_sorted comp x l'
  end.

Fixpoint insertion_sort (comp : Job -> Job -> bool) (l : list Job)
    : list Job :=
  match l with
  | [] => []
  | x :: l' => insert_sorted comp x (insertion_sort comp l')
  end.

(** ** Schedulers *)

(** The four classes derived from [Scheduler], each with its own queue and
    parameters. *)
Inductive SchedulerImpl : Type :=
| FCFSScheduler (fcfsQueue : list Job)
| SJFScheduler (sjfQueue : list Job)
| RoundRobinScheduler (rrQueue : list Job) (timeQuantum : Z)
| PriorityScheduler (priorityQueue : list Job)
                    (agingThreshold agingIncrement : Z).

(** A scheduler object: the derived part and the two protected members of
    the base class. *)
Record Scheduler : Type := mkScheduler {
  impl : SchedulerImpl;
  scheduledJobs : list Job;
  timelineLog : list string
}.

(** The queue of the derived class, whichever it is. *)
Definition queue (s : Scheduler) : list Job :=
  match impl s with
  | FCFSScheduler q => q
  | SJFScheduler q => q
  | RoundRobinScheduler q _ => q
  | PriorityScheduler q _ _ => q
  end.

(** The constructors (the default arguments are supplied by the caller). *)
Definition new_FCFSScheduler : Scheduler :=
  mkScheduler (FCFSScheduler []) [] [].
Definition new_SJFScheduler : Scheduler :=
  mkScheduler (SJFScheduler []) [] [].
Definition new_RoundRobinScheduler (quantum : Z) : Scheduler :=
  mkScheduler (RoundRobinScheduler [] quantum) [] [].
Definition new_PriorityScheduler (threshold increment : Z) : Scheduler :=
  mkScheduler (PriorityScheduler [] threshold increment) [] [].

Definition getQuantum (s : Scheduler) : option Z :=
  match impl s with
  | RoundRobinScheduler _ q => Some q
  | _ => None
  end.

Definition addJob (job : Job) (s : Scheduler) : Scheduler :=
  match impl s with
  | FCFSScheduler q =>
      mkScheduler (FCFSScheduler (q ++ [job])) (scheduledJobs s) (timelineLog s)
  | SJFScheduler q =>
      mkScheduler (SJFScheduler (q ++ [job])) (scheduledJobs s) (timelineLog s)
  | RoundRobinScheduler q tq =>
      mkScheduler (RoundRobinScheduler (q ++ [job]) tq)
                  (scheduledJobs s) (timelineLog s)
  | PriorityScheduler q th inc =>
      mkScheduler (PriorityScheduler (q ++ [job]) th inc)
                  (scheduledJobs s) (timelineLog s)
  end.

Definition hasJobs (s : Scheduler) : bool :=
  match queue s with
  | [] => false
  | _ :: _ => true
  end.

(** [getNextJob] returns the job together with the updated scheduler. *)
Definition getNextJob (s : Scheduler) : Job * Scheduler :=
  match impl s with
  | FCFSScheduler q =>
      match q with
      | job :: q' =>
          (job, mkScheduler (FCFSScheduler q')
                            (scheduledJobs s ++ [job]) (timelineLog s))
      | [] => (noJob, s)
      end
  | SJFScheduler q =>
      match q with
      | [] => (noJob, s)
      | _ :: _ =>
          let it := min_element (less_by remainingTime) q in
          let job := nth it q noJob in
          (job, mkScheduler (SJFScheduler (erase it q))
                            (scheduledJobs s ++ [job]) (timelineLog s))
      end
  | RoundRobinScheduler q tq =>
      match q with
      | [] => (noJob, s)
      | job :: q' =>
          (job, mkScheduler (RoundRobinScheduler q' tq)
                            (scheduledJobs s ++ [job]) (timelineLog s))
      end
  | PriorityScheduler q th inc =>
      match q with
      | [] => (noJob, s)
      | _ :: _ =>
          let it := min_element (less_by priority) q in
          let job := nth it q noJob in
          (job, mkScheduler (PriorityScheduler (erase it q) th inc)
                            (scheduledJobs s ++ [job]) (timelineLog s))
      end
  end.

(** One iteration of the loop of [PriorityScheduler::applyAging]. *)
Definition age (currentTime threshold increment : Z) (job : Job) : Job :=
  if threshold <? currentTime - arrivalTime job
  then
    let job1 := set_priority (priority job - increment) job in
    if priority job1 <? 0 then set_priority 0 job1 else job1
  else job.

Definition applyAging (currentTime threshold increment : Z)
    (q : list Job) : list Job :=
  map (age currentTime threshold increment) q.

(** ** The engine, for any implementation of [std::sort] *)

Section Engine.

Variable std_sort : (Job -> Job -> bool) -> list Job -> list Job.

Definition schedule (currentTime : Z) (s : Scheduler) : Scheduler :=
  match impl s with
  | FCFSScheduler _ => s
  | SJFScheduler q =>
      mkScheduler (SJFScheduler (std_sort (less_by remainingTime) q))
                  (scheduledJobs s) (timelineLog s)
  | RoundRobinScheduler _ _ => s
  | PriorityScheduler q th inc =>
      mkScheduler
        (PriorityScheduler
           (std_sort (less_by priority) (applyAging currentTime th inc q))
           th inc)
        (scheduledJobs s) (timelineLog s)
  end.

Definition setJobs (jobs : list Job) (s : Scheduler) : Scheduler :=
  match impl s with
  | FCFSScheduler _ => mkScheduler (FCFSScheduler jobs) [] []
  | SJFScheduler _ =>
      mkScheduler (SJFScheduler (std_sort (less_by burstTime) jobs)) [] []
  | RoundRobinScheduler _ tq => mkScheduler (RoundRobinScheduler jobs tq) [] []
  | PriorityScheduler _ th inc =>
      mkScheduler (PriorityScheduler (std_sort (less_by priority) jobs) th inc)
                  [] []
  end.

(** ** Simulator *)

Record Simulator : Type := mkSimulator {
  currentTime : Z;
  scheduler : Scheduler;
  allJobs : list Job;
  finishedJobs : list Job;
  ganttChart : list (Z * Z)
}.

(** [Simulator(std::unique_ptr<Scheduler> sched, std::vector<Job> jobs)]. *)
Definition new_Simulator (sched : Scheduler) (jobs : list Job) : Simulator :=
  mkSimulator 0 sched jobs [] [].

(** The [for] loop over [allJobs]: every job that has arrived is handed to
    the scheduler and erased, the others stay, in order. *)
Fixpoint admission (now : Z) (backlog : list Job) (s : Scheduler)
    : list Job * Scheduler :=
  match backlog with
  | [] => ([], s)
  | job :: rest =>
      if arrivalTime job <=? now
      then admission now rest (addJob job s)
      else let (rest', s') := admission now rest s in (job :: rest', s')
  end.

(** The condition of the [while] loop. *)
Definition pending (sim : Simulator) : bool :=
  negb (match allJobs sim with [] => true | _ :: _ => false end)
  || hasJobs (scheduler sim).

(** The job as the loop body leaves it before the test on
    [remainingTime]: start time stamped if unset, one unit executed. *)
Definition execute (now : Z) (job : Job) : Job :=
  let job1 := if startTime job =? -1 then set_startTime now job else job in
  set_remainingTime (remainingTime job1 - 1) job1.

(** The body of the [while] loop. *)
Definition tick (sim : Simulator) : Simulator :=
  let now := currentTime sim in
  let (backlog, s1) := admission now (allJobs sim) (scheduler sim) in
  let s2 := schedule now s1 in
  if hasJobs s2 then
    let (job0, s3) := getNextJob s2 in
    let job := execute now job0 in
    let chart := ganttChart sim ++ [(jobId job, now)] in
    let now' := now + 1 in
    if remainingTime job =? 0 then
      let done := calculateMetrics (set_completionTime now' job) in
      mkSimulator now' s3 backlog (finishedJobs sim ++ [done]) chart
    else
      mkSimulator now' (addJob job s3) backlog (finishedJobs sim) chart
  else
    mkSimulator (now + 1) s2 backlog (finishedJobs sim) (ganttChart sim).

(** [Simulator::run] with fuel: [None] when the loop is still running
    after [fuel] iterations. *)
Fixpoint run (fuel : nat) (sim : Simulator) : option Simulator :=
  if pending sim then
    match fuel with
    | O => None
    | S fuel' => run fuel' (tick sim)
    end
  else Some sim.

(** The simulator after at most [n] iterations of the loop. *)
Fixpoint run_for (n : nat) (sim : Simulator) : Simulator :=
  match n with
  | O => sim
  | S n' => if pending sim then run_for n' (tick sim) else sim
  end.

(** The queue the scheduler selects from in the iteration that starts in
    [sim], and the job it selects there (if any). *)
Definition ready_at (sim : Simulator) : list Job :=
  let (_, s1) := admission (currentTime sim) (allJobs sim) (scheduler sim) in
  queue (schedule (currentTime sim) s1).

Definition selected_at (sim : Simulator) : option Job :=
  let (_, s1) := admission (currentTime sim) (allJobs sim) (scheduler sim) in
  let s2 := schedule (currentTime sim) s1 in
  if hasJobs s2 then Some (fst (getNextJob s2)) else None.

(** ** UIController: the part that builds a simulator *)

Record UIController : Type := mkUIController {
  jobs : list Job;
  currentAlgorithm : Z;
  rrQuantum : Z;
  agingThreshold : Z;
  agingIncrement : Z;
  jobsFile : string
}.

Definition new_UIController : UIController :=
  mkUIController [] 0 2 5 1 "jobs.csv".

Definition createSimulator (ui : UIController) : Simulator :=
  let sched :=
    match currentAlgorithm ui with
    | 0 => new_FCFSScheduler
    | 1 => new_SJFScheduler
    | 2 => new_RoundRobinScheduler (rrQuantum ui)
    | 3 => new_PriorityScheduler (agingThreshold ui) (agingIncrement ui)
    | _ => new_FCFSScheduler
    end in
  let sched := setJobs (jobs ui) sched in
  new_Simulator sched (jobs ui).

(** ** Vocabulary of the statements *)

(** The sum of a field over a list of jobs. *)
Definition total (key : Job -> Z) (l : list Job) : Z :=
  fold_right (fun j acc => key j + acc) 0 l.

(** [job] sits in [l] between [before] and [after], and it is the first
    element of [l] with the smallest key. *)
Definition first_min (key : Job -> Z) (l : list Job)
    (before : list Job) (job : Job) (after : list Job) : Prop :=
  l = before ++ job :: after
  /\ Forall (fun x => key job < key x) before
  /\ Forall (fun x => key job <= key x) after.

(** What the contract of [std::sort] promises about its result. *)
Definition sorted_by (key : Job -> Z) (l : list Job) : Prop :=
  StronglySorted (fun a b => less_by key b a = false) l.

(** The change a call of [schedule] makes to each queued job. *)
Definition aging_of (now : Z) (s : Scheduler) : Job -> Job :=
  match impl s with
  | PriorityScheduler _ th inc => age now th inc
  | _ => fun job => job
  end.

(** The dynamic type of a scheduler, with its parameters. *)
Definition is_SJF (s : Scheduler) : Prop :=
  match impl s with SJFScheduler _ => True | _ => False end.

Definition is_Priority (th inc : Z) (s : Scheduler) : Prop :=
  match impl s with
  | PriorityScheduler _ th' inc' => th' = th /\ inc' = inc
  | _ => False
  end.

Definition is_fifo (s : Scheduler) : Prop :=
  match impl s with
  | FCFSScheduler _ | RoundRobinScheduler _ _ => True
  | _ => False
  end.

(** Two schedulers of the same class with the same parameters. *)
Definition same_policy (s s' : Scheduler) : Prop :=
  match impl s, impl s' with
  | FCFSScheduler _, FCFSScheduler _ => True
  | SJFScheduler _, SJFScheduler _ => True
  | RoundRobinScheduler _ tq, RoundRobinScheduler _ tq' => tq = tq'
  | PriorityScheduler _ th inc, PriorityScheduler _ th' inc' =>
      th = th' /\ inc = inc'
  | _, _ => False
  end.

(** The tests of the admission loop. *)
Definition arrived (now : Z) (job : Job) : bool := arrivalTime job <=? now.
Definition late (now : Z) (job : Job) : bool := negb (arrivalTime job <=? now).

(** The scheduler of the iteration that starts in [sim], after the
    admission loop and the call of [schedule]. *)
Definition scheduled_at (sim : Simulator) : Scheduler :=
  schedule (currentTime sim)
    (snd (admission (currentTime sim) (allJobs sim) (scheduler sim))).

(** The shape of the invariants of the loop: [B] holds of the jobs of the
    backlog, [Q now] of the queued jobs, [F] of the finished ones. *)
Definition invariant (B : Job -> Prop) (Q : Z -> Job -> Prop)
    (F : Job -> Prop) (sim : Simulator) : Prop :=
  0 <= currentTime sim
  /\ Forall B (allJobs sim)
  /\ Forall (Q (currentTime sim)) (queue (scheduler sim))
  /\ Forall F (finishedJobs sim).

(** The units of work still to execute: the remaining time of every job
    of the backlog and of the queue. *)
Definition work (sim : Simulator) : Z :=
  total remainingTime (allJobs sim ++ queue (scheduler sim)).

(** The number of time units until the last job of the backlog has
    arrived. *)
Definition horizon (now : Z) (backlog : list Job) : Z :=
  fold_right (fun j acc => Z.max (arrivalTime j + 1 - now) acc) 0 backlog.

(** The quantity that decreases at each iteration of the loop. *)
Definition measure (sim : Simulator) : Z :=
  work sim + horizon (currentTime sim) (allJobs sim).

(** A job as the constructors of [Job] leave it (the callers only assign
    [jobId] afterwards). *)
Definition constructed (job : Job) : Prop :=
  remainingTime job = burstTime job
  /\ startTime job = -1
  /\ completionTime job = -1
  /\ waitingTime job = 0
  /\ turnaroundTime job = 0.

(** The input contract of the engine: non-negative arrival time and at
    least one unit of work, on a job fresh from its constructor. *)
Definition well_formed (job : Job) : Prop :=
  0 <= arrivalTime job /\ 1 <= burstTime job /\ constructed job.

(** Every job still to run has work left. *)
Definition has_work (job : Job) : Prop := 1 <= remainingTime job.

(** The derived metrics of a finished job. *)
Definition metrics_computed (job : Job) : Prop :=
  remainingTime job = 0
  /\ turnaroundTime job = completionTime job - arrivalTime job
  /\ waitingTime job = turnaroundTime job - burstTime job.

(** Two insertion-order schedulers (FCFS or Round Robin, any quantum) in
    the same state, and two simulators that differ at most in which of
    these schedulers they own. *)
Definition fifo_equiv (s s' : Scheduler) : Prop :=
  is_fifo s /\ is_fifo s'
  /\ queue s = queue s'
  /\ scheduledJobs s = scheduledJobs s'.

Definition sim_equiv (a b : Simulator) : Prop :=
  currentTime a = currentTime b
  /\ fifo_equiv (scheduler a) (scheduler b)
  /\ allJobs a = allJobs b
  /\ finishedJobs a = finishedJobs b
  /\ ganttChart a = ganttChart b.

(** What a caller reads after [run]: the timeline and the finished jobs. *)
Definition outputs (sim : Simulator) : list (Z * Z) * list Job :=
  (ganttChart sim, finishedJobs sim).

(** The two ways to obtain a simulator for the jobs of [ui]:
    [createSimulator], or the constructor of [Simulator] on a scheduler
    whose queue is empty. *)
Definition fresh_simulator (ui : UIController) (sim : Simulator) : Prop :=
  exists sched, queue sched = [] /\ sim = new_Simulator sched (jobs ui).

Definition entry (ui : UIController) (sim : Simulator) : Prop :=
  sim = createSimulator ui \/ fresh_simulator ui sim.

(** A job without work to do keeps a remaining time that is not
    positive. *)
Definition workless (job : Job) : Prop :=
  burstTime job <= 0 /\ remainingTime job <= 0.

Definition never_done (job : Job) : Prop :=
  burstTime job <= 0 -> remainingTime job <= 0.

(** A queued job at time [now] that entered the queue on arrival: it has
    arrived, it has executed at most one unit per time unit since, and its
    start time is unset exactly as long as it has not executed. *)
Definition on_time (now : Z) (job : Job) : Prop :=
  arrivalTime job <= now
  /\ arrivalTime job + (burstTime job - remainingTime job) <= now
  /\ ((startTime job = -1 /\ remainingTime job = burstTime job)
      \/ (arrivalTime job <= startTime job /\ 0 <= startTime job < now)).

(** The relations between the times of a finished job. *)
Definition times_consistent (job : Job) : Prop :=
  arrivalTime job <= startTime job
  /\ startTime job <= completionTime job
  /\ 0 <= waitingTime job.

(** Inputs on which the simulator of [createSimulator] departs from the
    behaviour of the loop on a scheduler with an empty queue: one job of
    one unit arriving at time 0, one job of one unit arriving at time 5,
    and one job with no work, all under FCFS with the default
    parameters. *)
Definition ui_one_unit : UIController :=
  mkUIController [Job_of_id 1 0 1 0] 0 2 5 1 "jobs.csv".

Definition ui_late_arrival : UIController :=
  mkUIController [Job_of_id 1 5 1 0] 0 2 5 1 "jobs.csv".

Definition ui_zero_burst : UIController :=
  mkUIController [Job_of_id 1 0 0 0] 0 2 5 1 "jobs.csv".

(** A job with no work followed by a job of one unit, under FCFS. *)
Definition ui_zero_and_one : UIController :=
  mkUIController [Job_of_id 1 0 0 0; Job_of_id 2 0 1 0] 0 2 5 1 "jobs.csv".

(** The example of the specification: two jobs, the second shorter and
    arriving one unit later; the same under SJF in the controller. *)
Definition two_jobs : list Job := [Job_of_id 1 0 4 0; Job_of_id 2 1 2 0].

Definition ui_two_jobs_SJF : UIController :=
  mkUIController two_jobs 1 2 5 1 "jobs.csv".

(** A priority scheduler with the default aging parameters and two queued
    jobs, the first old enough at time 10 to be aged. *)
Definition aging_example : Scheduler :=
  mkScheduler (PriorityScheduler [Job_of_id 1 0 3 4; Job_of_id 2 9 1 2] 5 1)
              [] [].

(** *** Vocabulary of the further properties *)

(** What identifies a job and what no statement of the engine assigns. *)
Definition identity (job : Job) : Z * string * Z * Z :=
  (jobId job, name job, arrivalTime job, burstTime job).

(** Every job the simulator holds: finished, in the backlog or queued. *)
Definition live (sim : Simulator) : list Job :=
  finishedJobs sim ++ allJobs sim ++ queue (scheduler sim).

(** [n] calls of [getNextJob] in a row: the jobs returned, in order, and
    the scheduler left. *)
Fixpoint drain (n : nat) (s : Scheduler) : list Job * Scheduler :=
  match n with
  | O => ([], s)
  | S n' =>
      let (job, s1) := getNextJob s in
      let (rest, s2) := drain n' s1 in
      (job :: rest, s2)
  end.

(** [addJob] for each job of a list, in order. *)
Definition addJobs (l : list Job) (s : Scheduler) : Scheduler :=
  fold_left (fun s' job => addJob job s') l s.

(** A job aged by one [applyAging] pass at each of the given times. *)
Definition aged_at (times : list Z) (threshold increment : Z) (job : Job)
    : Job :=
  fold_left (fun job' now => age now threshold increment job') times job.

(** Non-decreasing keys along a list. *)
Definition ascending (key : Job -> Z) (l : list Job) : Prop :=
  StronglySorted (fun a b => key a <= key b) l.

(** ** UIController: the operations on the session state

    The functions of [UIController] read their arguments from [std::cin];
    here the values read are the arguments of the function, and what
    [getIntInput] guarantees about them (its [min] and [max]) is the
    precondition [valid_input].  Printing and pausing are left out. *)

(** [UIController::addJob], with the name and the three numbers read. *)
Definition UIController_addJob (nm : string) (arrival burst prio : Z)
    (ui : UIController) : UIController :=
  let nextId :=
    match jobs ui with
    | [] => 1
    | _ :: _ => jobId (last (jobs ui) noJob) + 1
    end in
  mkUIController
    (jobs ui ++ [set_jobId nextId (Job_of_name nm arrival burst prio)])
    (currentAlgorithm ui) (rrQuantum ui)
    (agingThreshold ui) (agingIncrement ui) (jobsFile ui).

(** [UIController::removeJob], with the index read (counted from 1);
    nothing is read and nothing changes when there is no job. *)
Definition UIController_removeJob (idx : Z) (ui : UIController)
    : UIController :=
  match jobs ui with
  | [] => ui
  | _ :: _ =>
      mkUIController (erase (Z.to_nat (idx - 1)) (jobs ui))
        (currentAlgorithm ui) (rrQuantum ui)
        (agingThreshold ui) (agingIncrement ui) (jobsFile ui)
  end.

(** [UIController::showAlgorithmMenu], with the choice read. *)
Definition showAlgorithmMenu (choice : Z) (ui : UIController) : UIController :=
  if (1 <=? choice) && (choice <=? 4)
  then mkUIController (jobs ui) (choice - 1) (rrQuantum ui)
         (agingThreshold ui) (agingIncrement ui) (jobsFile ui)
  else ui.

(** [UIController::showCustomizationMenu], with the choice read and the
    value read for the choices 1 to 3. *)
Definition showCustomizationMenu (choice value : Z) (ui : UIController)
    : UIController :=
  match choice with
  | 1 => mkUIController (jobs ui) (currentAlgorithm ui) value
           (agingThreshold ui) (agingIncrement ui) (jobsFile ui)
  | 2 => mkUIController (jobs ui) (currentAlgorithm ui) (rrQuantum ui)
           value (agingIncrement ui) (jobsFile ui)
  | 3 => mkUIController (jobs ui) (currentAlgorithm ui) (rrQuantum ui)
           (agingThreshold ui) value (jobsFile ui)
  | _ => ui
  end.

(** The part of [UIController::loadJobs] after the file has been read:
    [loadedJobs] replaces the jobs unless it is empty. *)
Definition loadJobs (loadedJobs : list Job) (ui : UIController)
    : UIController :=
  match loadedJobs with
  | [] => ui
  | _ :: _ =>
      mkUIController loadedJobs (currentAlgorithm ui) (rrQuantum ui)
        (agingThreshold ui) (agingIncrement ui) (jobsFile ui)
  end.

(** The menu entries that change the session without reading a file, with
    the values typed in. *)
Inductive MenuAction : Type :=
| AddJob (nm : string) (arrival burst prio : Z)
| RemoveJob (idx : Z)
| SelectAlgorithm (choice : Z)
| Customize (choice value : Z).

Definition perform (act : MenuAction) (ui : UIController) : UIController :=
  match act with
  | AddJob nm arrival burst prio => UIController_addJob nm arrival burst prio ui
  | RemoveJob idx => UIController_removeJob idx ui
  | SelectAlgorithm choice => showAlgorithmMenu choice ui
  | Customize choice value => showCustomizationMenu choice value ui
  end.

(** The bounds [getIntInput] is called with for each value. *)
Definition valid_input (ui : UIController) (act : MenuAction) : Prop :=
  match act with
  | AddJob _ arrival burst prio =>
      0 <= arrival <= 10000 /\ 1 <= burst <= 10000 /\ 0 <= prio <= 100
  | RemoveJob idx => 1 <= idx <= Z.of_nat (length (jobs ui))
  | SelectAlgorithm choice => 1 <= choice <= 5
  | Customize choice value =>
      1 <= choice <= 4 /\ (choice <= 3 -> 1 <= value <= 100)
  end.

Fixpoint session (acts : list MenuAction) (ui : UIController)
    : UIController :=
  match acts with
  | [] => ui
  | act :: rest => session rest (perform act ui)
  end.

Fixpoint valid_session (acts : list MenuAction) (ui : UIController) : Prop :=
  match acts with
  | [] => True
  | act :: rest => valid_input ui act /\ valid_session rest (perform act ui)
  end.

(** The state the menus maintain. *)
Definition session_invariant (ui : UIController) : Prop :=
  Forall well_formed (jobs ui)
  /\ Forall (fun job => 0 <= priority job <= 100) (jobs ui)
  /\ StronglySorted Z.lt (map jobId (jobs ui))
  /\ 0 <= currentAlgorithm ui <= 3
  /\ 1 <= rrQuantum ui <= 100
  /\ 1 <= agingThreshold ui <= 100
  /\ 1 <= agingIncrement ui <= 100.

(** The timeline of a simulator that started at time 0 with an empty
    timeline: one record per time unit at most, in increasing time. *)
Definition chart_in_order (sim : Simulator) : Prop :=
  0 <= currentTime sim
  /\ StronglySorted Z.lt (map snd (ganttChart sim))
  /\ Forall (fun r => 0 <= snd r < currentTime sim) (ganttChart sim)
  /\ Z.of_nat (length (ganttChart sim)) <= currentTime sim.

(** The finished jobs in the order of their completion. *)
Definition finished_in_order (sim : Simulator) : Prop :=
  0 <= currentTime sim
  /\ StronglySorted Z.lt (map completionTime (finishedJobs sim))
  /\ Forall (fun job => 0 < completionTime job <= currentTime sim)
            (finishedJobs sim).

(** A session at the menus: two jobs added, the priority scheduler
    chosen, the aging threshold set to 4, the first job removed. *)
Definition menu_example : list MenuAction :=
  [AddJob "a" 0 3 1; AddJob "b" 2 1 0; SelectAlgorithm 4; Customize 2 4;
   RemoveJob 1].

(** The SJF scheduler loaded with the two jobs of the example, and the
    simulator of the example on a new SJF scheduler. *)
Definition SJF_example : Scheduler := addJobs two_jobs new_SJFScheduler.

Definition sim_two_jobs_SJF : Simulator :=
  new_Simulator new_SJFScheduler two_jobs.

(** ** Saving and loading jobs

    The text of a file is a [string].  The stream operations follow the
    C++ library for the default ("C") locale and a 32-bit [int]:
    formatted extraction first skips white space; an [int] is an optional
    sign followed by at least one decimal digit and fails when there is no
    digit or the value does not fit; a [char] is the next character.  A
    failed extraction makes the rest of a chain of [>>] fail, which is
    the [None] of [option] here. *)

Definition newline : Ascii.ascii := "010"%char.

Definition INT_MIN : Z := -2147483648.
Definition INT_MAX : Z := 2147483647.

(** [std::isspace]: space, and the characters 9 to 13. *)
Definition isspace (c : Ascii.ascii) : bool :=
  let n := Ascii.N_of_ascii c in
  (n =? 32)%N || ((9 <=? n)%N && (n <=? 13)%N).

Fixpoint skipws (s : string) : string :=
  match s with
  | EmptyString => s
  | String c s' => if isspace c then skipws s' else s
  end.

(** The longest prefix of decimal digits, as a decimal number, and what
    follows it. *)
Fixpoint extract_digits (s : string) : Decimal.uint * string :=
  match s with
  | EmptyString => (Decimal.Nil, s)
  | String c s' =>
      let (d, rest) := extract_digits s' in
      match uint_of_char c (Some d) with
      | Some d' => (d', rest)
      | None => (Decimal.Nil, s)
      end
  end.

(** [stream >> int]. *)
Definition extract_int (s : string) : option (Z * string) :=
  let s1 := skipws s in
  let (negative, s2) :=
    match s1 with
    | EmptyString => (false, s1)
    | String c r =>
        if Ascii.eqb c "-" then (true, r)
        else if Ascii.eqb c "+" then (false, r)
        else (false, s1)
    end in
  let (d, rest) := extract_digits s2 in
  match d with
  | Decimal.Nil => None
  | _ =>
      let v := if negative then - Z.of_uint d else Z.of_uint d in
      if (INT_MIN <=? v) && (v <=? INT_MAX) then Some (v, rest) else None
  end.

(** [stream >> char]. *)
Definition extract_char (s : string) : option (Ascii.ascii * string) :=
  match skipws s with
  | EmptyString => None
  | String c r => Some (c, r)
  end.

(** [std::getline(stream, line, delim)] on a non-empty stream: the
    characters before the first delimiter, and what follows it. *)
Fixpoint getline (delim : Ascii.ascii) (s : string) : string * string :=
  match s with
  | EmptyString => (EmptyString, EmptyString)
  | String c s' =>
      if Ascii.eqb c delim then (EmptyString, s')
      else let (line, rest) := getline delim s' in (String c line, rest)
  end.

(** The lines that [std::getline(file, line)] returns one after the
    other until it fails: the text split at the newlines, a last line
    without newline included, no empty line after a final newline. *)
Fixpoint split_lines (s : string) : list string :=
  match s with
  | EmptyString => []
  | String c s' =>
      if Ascii.eqb c newline then EmptyString :: split_lines s'
      else match split_lines s' with
           | [] => [String c EmptyString]
           | line :: rest => String c line :: rest
           end
  end.

(** The first attempt on a line:
    [ss >> fileId >> comma >> arrival >> comma >> burst >> comma >> priority]. *)
Definition parse_id_line (line : string) : option Job :=
  match extract_int line with
  | None => None
  | Some (fileId, s1) =>
  match extract_char s1 with
  | None => None
  | Some (_, s2) =>
  match extract_int s2 with
  | None => None
  | Some (arrival, s3) =>
  match extract_char s3 with
  | None => None
  | Some (_, s4) =>
  match extract_int s4 with
  | None => None
  | Some (burst, s5) =>
  match extract_char s5 with
  | None => None
  | Some (_, s6) =>
  match extract_int s6 with
  | None => None
  | Some (prio, _) => Some (Job_of_id fileId arrival burst prio)
  end end end end end end end.

(** The second attempt: a name up to the first comma, then
    [arrival >> comma], [burst >> comma] and [priority]. *)
Definition parse_name_line (line : string) : option Job :=
  match line with
  | EmptyString => None
  | String _ _ =>
  let (nm, s1) := getline ","%char line in
  match extract_int s1 with
  | None => None
  | Some (arrival, s2) =>
  match extract_char s2 with
  | None => None
  | Some (_, s3) =>
  match extract_int s3 with
  | None => None
  | Some (burst, s4) =>
  match extract_char s4 with
  | None => None
  | Some (_, s5) =>
  match extract_int s5 with
  | None => None
  | Some (prio, _) => Some (Job_of_name nm arrival burst prio)
  end end end end end
  end.

(** The [while] loop of [loadJobsFromCSV] over the lines after the
    header, with the counter [id] for the jobs given by name. *)
Fixpoint load_lines (lines : list string) (id : Z) : list Job :=
  match lines with
  | [] => []
  | line :: rest =>
      match parse_id_line line with
      | Some job => job :: load_lines rest id
      | None =>
          match parse_name_line line with
          | Some job => set_jobId id job :: load_lines rest (id + 1)
          | None => load_lines rest id
          end
      end
  end.

(** [loadJobsFromCSV], on the text of the file, [None] when the file
    cannot be opened. *)
Definition loadJobsFromCSV (file : option string) : list Job :=
  match file with
  | None => []
  | Some text => load_lines (tl (split_lines text)) 1
  end.

(** The line [saveJobs] writes for a job, without its newline. *)
Definition csv_fields (job : Job) : string :=
  (to_string (jobId job) ++ ","
   ++ to_string (arrivalTime job) ++ ","
   ++ to_string (burstTime job) ++ ","
   ++ to_string (priority job))%string.

(** The text [UIController::saveJobs] writes to the file. *)
Definition saveJobs (l : list Job) : string :=
  ("id,arrival,burst,priority" ++ String newline
     (fold_right (fun job text => csv_fields job ++ String newline text)
                 EmptyString l))%string.

(** What is left of a job after saving and loading. *)
Definition reloaded (job : Job) : Job :=
  Job_of_id (jobId job) (arrivalTime job) (burstTime job) (priority job).

Definition in_int_range (z : Z) : Prop := INT_MIN <= z <= INT_MAX.

Definition storable (job : Job) : Prop :=
  in_int_range (jobId job) /\ in_int_range (arrivalTime job)
  /\ in_int_range (burstTime job) /\ in_int_range (priority job).

(** Nothing follows the digits of a number: the text ends, or goes on
    with a character that is not a digit. *)
Definition stops (rest : string) : Prop :=
  extract_digits rest = (Decimal.Nil, rest).

(** A text without newline. *)
Fixpoint one_line (s : string) : bool :=
  match s with
  | EmptyString => true
  | String c s' => negb (Ascii.eqb c newline) && one_line s'
  end.

(** The example of the specification as a file. *)
Definition two_jobs_file : string := saveJobs two_jobs.

(** ** Properties *)

Hypothesis std_sort_permutation :
  forall (key : Job -> Z) (l : list Job),
    Permutation l (std_sort (less_by key) l).

Hypothesis std_sort_sorted :
  forall (key : Job -> Z) (l : list Job),
    sorted_by key (std_sort (less_by key) l).

(** *** Lists and sums *)

Lemma total_app key l1 l2 : total key (l1 ++ l2) = total key l1 + total key l2.
Proof. induction l1 as [|x l1 IH]; simpl; [reflexivity | rewrite IH; lia]. Qed.

Lemma total_permutation key l1 l2 :
  Permutation l1 l2 -> total key l1 = total key l2.
Proof. induction 1; simpl; lia. Qed.

Lemma total_map key f l :
  (forall j, key (f j) = key j) -> total key (map f l) = total key l.
Proof.
  intros Hf. induction l as [|x l IH]; simpl; [reflexivity|].
  rewrite Hf, IH. reflexivity.
Qed.

(** *** [std::min_element] *)

Lemma min_element_from_first_min key rest :
  forall before smallestv after,
    Forall (fun x => key smallestv < key x) before ->
    Forall (fun x => key smallestv <= key x) after ->
    exists before' job after',
      first_min key (before ++ smallestv :: after ++ rest) before' job after'
      /\ length before' =
         min_element_from (less_by key) (length before) smallestv
           (length (before ++ smallestv :: after)) rest.
Proof.
  induction rest as [|x rest IH]; intros before v after Hb Ha; simpl.
  - exists before, v, after. rewrite app_nil_r. repeat split; assumption.
  - unfold less_by at 1. destruct (Z.ltb_spec (key x) (key v)) as [Hlt|Hge].
    + destruct (IH (before ++ v :: after) x []) as (b' & j & a' & Hm & Hlen).
      * apply Forall_app; split.
        -- eapply Forall_impl; [|exact Hb]. simpl; intros; lia.
        -- constructor; [lia|]. eapply Forall_impl; [|exact Ha].
           simpl; intros; lia.
      * constructor.
      * exists b', j, a'. split.
        -- replace (before ++ v :: after ++ x :: rest)
             with ((before ++ v :: after) ++ x :: [] ++ rest)
             by (rewrite <- app_assoc; reflexivity).
           exact Hm.
        -- rewrite Hlen. f_equal.
           repeat (rewrite length_app; simpl). lia.
    + destruct (IH before v (after ++ [x])) as (b' & j & a' & Hm & Hlen).
      * exact Hb.
      * apply Forall_app; split; [exact Ha|]. constructor; [lia|constructor].
      * exists b', j, a'. split.
        -- rewrite <- app_assoc in Hm. exact Hm.
        -- rewrite Hlen. f_equal.
           repeat (rewrite length_app; simpl). lia.
Qed.

Lemma split_at_length (b : list Job) j a d :
  firstn (length b) (b ++ j :: a) = b
  /\ nth (length b) (b ++ j :: a) d = j
  /\ skipn (S (length b)) (b ++ j :: a) = a.
Proof.
  induction b as [|x b IH]; simpl; [auto|].
  destruct IH as (H1 & H2 & H3). rewrite H1. auto.
Qed.

Lemma min_element_first_min key l :
  l <> [] ->
  let it := min_element (less_by key) l in
  first_min key l (firstn it l) (nth it l noJob) (skipn (S it) l).
Proof.
  destruct l as [|x l]; [congruence|]. intros _. simpl min_element.
  destruct (min_element_from_first_min key l [] x [])
    as (b & j & a & (Heq & Hb & Ha) & Hlen); [constructor|constructor|].
  simpl in Heq, Hlen. rewrite <- Hlen. rewrite Heq. cbv zeta.
  destruct (split_at_length b j a noJob) as (H1 & H2 & H3).
  rewrite H1, H2, H3. repeat split; assumption.
Qed.

(** *** The operations of the schedulers on their queue *)

Lemma queue_addJob job s : queue (addJob job s) = queue s ++ [job].
Proof. unfold queue, addJob. destruct (impl s); reflexivity. Qed.

Lemma scheduledJobs_addJob job s :
  scheduledJobs (addJob job s) = scheduledJobs s.
Proof. unfold addJob. destruct (impl s); reflexivity. Qed.

Lemma same_policy_refl s : same_policy s s.
Proof. unfold same_policy. destruct (impl s); auto. Qed.

Lemma same_policy_trans s1 s2 s3 :
  same_policy s1 s2 -> same_policy s2 s3 -> same_policy s1 s3.
Proof.
  unfold same_policy.
  destruct (impl s1), (impl s2), (impl s3); intuition congruence.
Qed.

Lemma same_policy_sym s1 s2 : same_policy s1 s2 -> same_policy s2 s1.
Proof.
  unfold same_policy. destruct (impl s1), (impl s2); intuition congruence.
Qed.

Lemma same_policy_addJob job s : same_policy s (addJob job s).
Proof. unfold same_policy, addJob. destruct (impl s); simpl; auto. Qed.

Lemma same_policy_schedule now s : same_policy s (schedule now s).
Proof.
  unfold same_policy, schedule. destruct (impl s) eqn:E; simpl; auto;
    rewrite E; auto.
Qed.

Lemma same_policy_getNextJob s : same_policy s (snd (getNextJob s)).
Proof.
  unfold same_policy, getNextJob.
  destruct (impl s) as [q|q|q tq|q th inc] eqn:E; destruct q; simpl;
    rewrite ?E; auto.
Qed.

Lemma same_policy_aging now s s' :
  same_policy s s' -> aging_of now s' = aging_of now s.
Proof.
  unfold same_policy, aging_of.
  destruct (impl s), (impl s'); try tauto. intros [-> ->]. reflexivity.
Qed.

Lemma hasJobs_true s : hasJobs s = true <-> queue s <> [].
Proof. unfold hasJobs. destruct (queue s); split; congruence. Qed.

Lemma hasJobs_false s : hasJobs s = false <-> queue s = [].
Proof. unfold hasJobs. destruct (queue s); split; congruence. Qed.

Lemma age_unfold now th inc job :
  age now th inc job =
  if th <? now - arrivalTime job
  then set_priority (Z.max 0 (priority job - inc)) job
  else job.
Proof.
  unfold age. destruct (th <? now - arrivalTime job); [|reflexivity].
  simpl. destruct (Z.ltb_spec (priority job - inc) 0).
  - unfold set_priority; simpl. rewrite Z.max_l by lia. reflexivity.
  - rewrite Z.max_r by lia. reflexivity.
Qed.

Lemma aging_of_cases now s job :
  aging_of now s job = job
  \/ exists p, aging_of now s job = set_priority p job.
Proof.
  unfold aging_of. destruct (impl s); auto.
  rewrite age_unfold. destruct (_ <? _); eauto.
Qed.

Lemma queue_schedule now s :
  Permutation (map (aging_of now s) (queue s)) (queue (schedule now s)).
Proof.
  unfold queue, schedule, aging_of.
  destruct (impl s) as [q|q|q tq|q th inc] eqn:E; simpl; rewrite ?E;
    try (rewrite map_id; apply Permutation_refl).
  - rewrite map_id. apply std_sort_permutation.
  - apply std_sort_permutation.
Qed.

(** On a non-empty queue, [getNextJob] takes one job out of the queue,
    leaves the others in order and logs the job in [scheduledJobs]. *)
Lemma getNextJob_queue s :
  queue s <> [] ->
  exists before after,
    queue s = before ++ fst (getNextJob s) :: after
    /\ queue (snd (getNextJob s)) = before ++ after
    /\ scheduledJobs (snd (getNextJob s)) =
       scheduledJobs s ++ [fst (getNextJob s)].
Proof.
  unfold queue, getNextJob.
  destruct (impl s) as [q|q|q tq|q th inc] eqn:E; intros Hq;
    (destruct q as [|x q]; [congruence|]).
  - exists [], q. simpl. auto.
  - destruct (min_element_first_min remainingTime (x :: q)) as (H & _);
      [congruence|].
    eexists _, _. split; [exact H|]. simpl. auto.
  - exists [], q. simpl. auto.
  - destruct (min_element_first_min priority (x :: q)) as (H & _);
      [congruence|].
    eexists _, _. split; [exact H|]. simpl. auto.
Qed.

Lemma getNextJob_SJF s :
  is_SJF s -> queue s <> [] ->
  first_min remainingTime (queue s)
    (firstn (min_element (less_by remainingTime) (queue s)) (queue s))
    (fst (getNextJob s))
    (skipn (S (min_element (less_by remainingTime) (queue s))) (queue s))
  /\ queue (snd (getNextJob s)) =
     erase (min_element (less_by remainingTime) (queue s)) (queue s).
Proof.
  unfold is_SJF, queue, getNextJob.
  destruct (impl s) as [q|q|q tq|q th inc] eqn:E; try tauto. intros _ Hq.
  destruct q as [|x q]; [congruence|]. split.
  - apply (min_element_first_min remainingTime (x :: q)). congruence.
  - reflexivity.
Qed.

Lemma getNextJob_Priority th inc s :
  is_Priority th inc s -> queue s <> [] ->
  first_min priority (queue s)
    (firstn (min_element (less_by priority) (queue s)) (queue s))
    (fst (getNextJob s))
    (skipn (S (min_element (less_by priority) (queue s))) (queue s))
  /\ queue (snd (getNextJob s)) =
     erase (min_element (less_by priority) (queue s)) (queue s).
Proof.
  unfold is_Priority, queue, getNextJob.
  destruct (impl s) as [q|q|q tq|q th' inc'] eqn:E; try tauto. intros _ Hq.
  destruct q as [|x q]; [congruence|]. split.
  - apply (min_element_first_min priority (x :: q)). congruence.
  - reflexivity.
Qed.

(** *** The admission loop *)

Lemma admission_backlog now backlog :
  forall s, fst (admission now backlog s) = filter (late now) backlog.
Proof.
  induction backlog as [|job rest IH]; intros s; simpl; [reflexivity|].
  unfold late at 1. destruct (arrivalTime job <=? now); simpl.
  - apply IH.
  - specialize (IH s). destruct (admission now rest s). simpl in *.
    rewrite IH. reflexivity.
Qed.

Lemma admission_queue now backlog :
  forall s,
    queue (snd (admission now backlog s)) =
    queue s ++ filter (arrived now) backlog.
Proof.
  induction backlog as [|job rest IH]; intros s; simpl.
  - rewrite app_nil_r. reflexivity.
  - unfold arrived at 1. destruct (arrivalTime job <=? now); simpl.
    + rewrite IH, queue_addJob, <- app_assoc. reflexivity.
    + specialize (IH s). destruct (admission now rest s). simpl in *. exact IH.
Qed.

Lemma admission_same_policy now backlog :
  forall s, same_policy s (snd (admission now backlog s)).
Proof.
  induction backlog as [|job rest IH]; intros s; simpl.
  - apply same_policy_refl.
  - destruct (arrivalTime job <=? now).
    + eapply same_policy_trans; [apply same_policy_addJob|apply IH].
    + specialize (IH s). destruct (admission now rest s). exact IH.
Qed.

Lemma run_for_preserves (P : Simulator -> Prop) :
  (forall sim, P sim -> P (tick sim)) ->
  forall n sim, P sim -> P (run_for n sim).
Proof.
  intros Hstep. induction n as [|n IH]; intros sim H; simpl; [exact H|].
  destruct (pending sim); [apply IH, Hstep, H|exact H].
Qed.

(** *** What one unit of execution changes in a job *)

Lemma remainingTime_execute now job :
  remainingTime (execute now job) = remainingTime job - 1.
Proof. unfold execute. destruct (startTime job =? -1); reflexivity. Qed.

Lemma burstTime_execute now job : burstTime (execute now job) = burstTime job.
Proof. unfold execute. destruct (startTime job =? -1); reflexivity. Qed.

Lemma arrivalTime_execute now job :
  arrivalTime (execute now job) = arrivalTime job.
Proof. unfold execute. destruct (startTime job =? -1); reflexivity. Qed.

Lemma jobId_execute now job : jobId (execute now job) = jobId job.
Proof. unfold execute. destruct (startTime job =? -1); reflexivity. Qed.

Lemma startTime_execute now job :
  startTime (execute now job) =
  if startTime job =? -1 then now else startTime job.
Proof. unfold execute. destruct (startTime job =? -1); reflexivity. Qed.

(** *** One iteration of the loop *)

Lemma tick_unfold sim :
  tick sim =
  let now := currentTime sim in
  let backlog := filter (late now) (allJobs sim) in
  let s2 := scheduled_at sim in
  if hasJobs s2 then
    let job := execute now (fst (getNextJob s2)) in
    let s3 := snd (getNextJob s2) in
    let chart := ganttChart sim ++ [(jobId job, now)] in
    if remainingTime job =? 0 then
      mkSimulator (now + 1) s3 backlog
        (finishedJobs sim ++
           [calculateMetrics (set_completionTime (now + 1) job)])
        chart
    else
      mkSimulator (now + 1) (addJob job s3) backlog (finishedJobs sim) chart
  else
    mkSimulator (now + 1) s2 backlog (finishedJobs sim) (ganttChart sim).
Proof.
  unfold tick, scheduled_at.
  rewrite <- (admission_backlog (currentTime sim) (allJobs sim) (scheduler sim)).
  destruct (admission (currentTime sim) (allJobs sim) (scheduler sim))
    as [backlog s1].
  cbv zeta. simpl fst. simpl snd.
  destruct (getNextJob (schedule (currentTime sim) s1)). reflexivity.
Qed.

Lemma ready_at_scheduled sim : ready_at sim = queue (scheduled_at sim).
Proof.
  unfold ready_at, scheduled_at.
  destruct (admission (currentTime sim) (allJobs sim) (scheduler sim)).
  reflexivity.
Qed.

Lemma selected_at_scheduled sim :
  selected_at sim =
  if hasJobs (scheduled_at sim)
  then Some (fst (getNextJob (scheduled_at sim)))
  else None.
Proof.
  unfold selected_at, scheduled_at.
  destruct (admission (currentTime sim) (allJobs sim) (scheduler sim)).
  reflexivity.
Qed.

Lemma scheduled_at_policy sim : same_policy (scheduler sim) (scheduled_at sim).
Proof.
  unfold scheduled_at.
  eapply same_policy_trans;
    [apply admission_same_policy | apply same_policy_schedule].
Qed.

Lemma scheduled_at_queue sim :
  Permutation
    (map (aging_of (currentTime sim) (scheduler sim))
         (queue (scheduler sim)
          ++ filter (arrived (currentTime sim)) (allJobs sim)))
    (queue (scheduled_at sim)).
Proof.
  unfold scheduled_at.
  rewrite <- (same_policy_aging (currentTime sim) _ _
                (admission_same_policy (currentTime sim) (allJobs sim)
                                   (scheduler sim))).
  rewrite <- admission_queue. apply queue_schedule.
Qed.

Lemma currentTime_tick sim : currentTime (tick sim) = currentTime sim + 1.
Proof.
  rewrite tick_unfold. cbv zeta.
  destruct (hasJobs _); [destruct (_ =? 0)|]; reflexivity.
Qed.

Lemma allJobs_tick sim :
  allJobs (tick sim) = filter (late (currentTime sim)) (allJobs sim).
Proof.
  rewrite tick_unfold. cbv zeta.
  destruct (hasJobs _); [destruct (_ =? 0)|]; reflexivity.
Qed.

Lemma ganttChart_tick sim :
  ganttChart (tick sim) =
  match selected_at sim with
  | Some job => ganttChart sim ++ [(jobId job, currentTime sim)]
  | None => ganttChart sim
  end.
Proof.
  rewrite selected_at_scheduled, tick_unfold. cbv zeta.
  destruct (hasJobs (scheduled_at sim)); [|reflexivity].
  rewrite jobId_execute.
  destruct (_ =? 0); reflexivity.
Qed.

(** *** Invariants of the loop *)

Section Invariant.

Variables (B : Job -> Prop) (Q : Z -> Job -> Prop) (F : Job -> Prop).

Hypothesis arrival_ok :
  forall t j, 0 <= t -> B j -> arrivalTime j <= t -> Q t j.
Hypothesis priority_ok :
  forall t j p, Q t j -> Q t (set_priority p j).
Hypothesis wait_ok :
  forall t j, 0 <= t -> Q t j -> Q (t + 1) j.
Hypothesis requeue_ok :
  forall t j, 0 <= t -> Q t j -> remainingTime (execute t j) <> 0 ->
              Q (t + 1) (execute t j).
Hypothesis finish_ok :
  forall t j, 0 <= t -> Q t j -> remainingTime (execute t j) = 0 ->
              F (calculateMetrics (set_completionTime (t + 1) (execute t j))).

Lemma invariant_scheduled sim :
  invariant B Q F sim ->
  Forall (Q (currentTime sim)) (queue (scheduled_at sim)).
Proof.
  intros (Ht & HB & HQ & HF).
  eapply Permutation_Forall; [apply scheduled_at_queue|].
  apply Forall_map. apply Forall_app. split.
  - eapply Forall_impl; [|exact HQ]. intros j Hj.
    destruct (aging_of_cases (currentTime sim) (scheduler sim) j)
      as [->|[p ->]]; auto.
  - rewrite Forall_forall in *. intros j Hj.
    apply filter_In in Hj. destruct Hj as [Hin Harr].
    unfold arrived in Harr. apply Z.leb_le in Harr.
    destruct (aging_of_cases (currentTime sim) (scheduler sim) j)
      as [->|[p ->]]; auto.
Qed.

Lemma invariant_tick sim : invariant B Q F sim -> invariant B Q F (tick sim).
Proof.
  intros Hinv. pose proof (invariant_scheduled sim Hinv) as Hq2.
  destruct Hinv as (Ht & HB & HQ & HF).
  assert (HB' : Forall B (filter (late (currentTime sim)) (allJobs sim))).
  { rewrite Forall_forall in *. intros j Hj. apply filter_In in Hj.
    apply HB, Hj. }
  rewrite tick_unfold. cbv zeta.
  destruct (hasJobs (scheduled_at sim)) eqn:Hhas.
  - apply hasJobs_true in Hhas.
    destruct (getNextJob_queue _ Hhas) as (before & after & Hq & Hq' & _).
    set (job0 := fst (getNextJob (scheduled_at sim))) in *.
    rewrite Hq in Hq2. apply Forall_app in Hq2. destruct Hq2 as [Hb Hja].
    inversion Hja as [|? ? Hj Ha]; subst.
    assert (Hrest : Forall (Q (currentTime sim + 1)) (before ++ after)).
    { apply Forall_app. split; (eapply Forall_impl; [|eassumption]);
        intros; apply wait_ok; assumption. }
    destruct (Z.eqb_spec (remainingTime (execute (currentTime sim) job0)) 0)
      as [Hz|Hnz]; unfold invariant; simpl.
    + repeat split; try lia; try assumption.
      * rewrite Hq'. exact Hrest.
      * apply Forall_app. split; [exact HF|]. constructor; [|constructor].
        apply finish_ok; assumption.
    + repeat split; try lia; try assumption.
      rewrite queue_addJob, Hq'. apply Forall_app. split; [exact Hrest|].
      constructor; [|constructor]. apply requeue_ok; assumption.
  - apply hasJobs_false in Hhas. unfold invariant; simpl.
    repeat split; try lia; try assumption. rewrite Hhas. constructor.
Qed.

Lemma invariant_run_for n :
  forall sim, invariant B Q F sim -> invariant B Q F (run_for n sim).
Proof.
  induction n as [|n IH]; intros sim Hinv; simpl; [exact Hinv|].
  destruct (pending sim); [|exact Hinv]. apply IH, invariant_tick, Hinv.
Qed.

End Invariant.

(** *** The loop *)

Lemma pending_false sim :
  pending sim = false <-> allJobs sim = [] /\ queue (scheduler sim) = [].
Proof.
  unfold pending. rewrite orb_false_iff, hasJobs_false.
  destruct (allJobs sim); simpl; intuition congruence.
Qed.

Lemma run_run_for fuel :
  forall sim,
    run fuel sim =
    if pending (run_for fuel sim) then None else Some (run_for fuel sim).
Proof.
  induction fuel as [|fuel IH]; intros sim; simpl.
  - reflexivity.
  - destruct (pending sim) eqn:E; [apply IH|]. rewrite E. reflexivity.
Qed.

Lemma run_some fuel sim sim' :
  run fuel sim = Some sim' ->
  sim' = run_for fuel sim /\ pending sim' = false.
Proof.
  rewrite run_run_for. destruct (pending (run_for fuel sim)) eqn:E;
    [discriminate|].
  intros [= <-]. auto.
Qed.

Lemma run_for_stopped n sim : pending sim = false -> run_for n sim = sim.
Proof. intros H. destruct n; simpl; [|rewrite H]; reflexivity. Qed.

Lemma run_for_add n :
  forall m sim, run_for (n + m) sim = run_for m (run_for n sim).
Proof.
  induction n as [|n IH]; intros m sim; simpl; [reflexivity|].
  destruct (pending sim) eqn:E; [apply IH|].
  rewrite run_for_stopped by exact E. reflexivity.
Qed.

Lemma remainingTime_aging_of now s job :
  remainingTime (aging_of now s job) = remainingTime job.
Proof.
  destruct (aging_of_cases now s job) as [->|[p ->]]; reflexivity.
Qed.

(** *** The timeline accounts for every executed unit *)

Lemma total_filter_split key now l :
  total key l =
  total key (filter (late now) l) + total key (filter (arrived now) l).
Proof.
  induction l as [|x l IH]; simpl; [reflexivity|].
  unfold late at 1, arrived at 1.
  destruct (arrivalTime x <=? now); simpl; rewrite IH; lia.
Qed.

Lemma total_scheduled_at sim :
  total remainingTime (queue (scheduled_at sim)) =
  total remainingTime (queue (scheduler sim))
  + total remainingTime (filter (arrived (currentTime sim)) (allJobs sim)).
Proof.
  rewrite <- (total_permutation _ _ _ (scheduled_at_queue sim)).
  rewrite total_map by apply remainingTime_aging_of.
  apply total_app.
Qed.

Lemma tick_work sim :
  (work (tick sim) = work sim
   /\ ganttChart (tick sim) = ganttChart sim
   /\ queue (scheduled_at sim) = [])
  \/ (work (tick sim) = work sim - 1
      /\ exists job,
          selected_at sim = Some job
          /\ ganttChart (tick sim) =
             ganttChart sim ++ [(jobId job, currentTime sim)]).
Proof.
  pose proof (total_scheduled_at sim) as Hs.
  pose proof (total_filter_split remainingTime (currentTime sim)
                (allJobs sim)) as Hf.
  rewrite selected_at_scheduled.
  unfold work. rewrite tick_unfold. cbv zeta. rewrite !total_app.
  destruct (hasJobs (scheduled_at sim)) eqn:Hhas.
  - right. apply hasJobs_true in Hhas.
    destruct (getNextJob_queue _ Hhas) as (before & after & Hq & Hq' & _).
    set (job0 := fst (getNextJob (scheduled_at sim))) in *.
    rewrite Hq, total_app in Hs. simpl in Hs.
    destruct (Z.eqb_spec (remainingTime (execute (currentTime sim) job0)) 0)
      as [Hz|Hnz]; simpl.
    + rewrite remainingTime_execute in Hz. rewrite Hq', total_app.
      split; [lia|]. exists job0. split; [reflexivity|].
      destruct (startTime job0 =? -1); reflexivity.
    + rewrite queue_addJob, Hq', !total_app.
      change (total remainingTime [execute (currentTime sim) job0])
        with (remainingTime (execute (currentTime sim) job0) + 0).
      rewrite remainingTime_execute.
      split; [lia|]. exists job0. split; [reflexivity|].
      destruct (startTime job0 =? -1); reflexivity.
  - left. apply hasJobs_false in Hhas. simpl. rewrite Hhas in *.
    simpl in *. repeat split; lia.
Qed.

Lemma tick_timeline sim :
  Z.of_nat (length (ganttChart (tick sim))) + work (tick sim) =
  Z.of_nat (length (ganttChart sim)) + work sim.
Proof.
  destruct (tick_work sim) as [(Hw & Hg & _)|(Hw & job & _ & Hg)];
    rewrite Hw, Hg; [reflexivity|].
  rewrite length_app. simpl. lia.
Qed.

Lemma run_for_timeline n :
  forall sim,
    Z.of_nat (length (ganttChart (run_for n sim))) + work (run_for n sim) =
    Z.of_nat (length (ganttChart sim)) + work sim.
Proof.
  induction n as [|n IH]; intros sim; simpl; [reflexivity|].
  destruct (pending sim); [|reflexivity].
  rewrite IH. apply tick_timeline.
Qed.

(** When [run] returns, the timeline has grown by exactly the work that
    was pending at the start. *)
Lemma run_timeline fuel sim sim' :
  run fuel sim = Some sim' ->
  Z.of_nat (length (ganttChart sim')) =
  Z.of_nat (length (ganttChart sim)) + work sim.
Proof.
  intros H. apply run_some in H. destruct H as [-> Hp].
  apply pending_false in Hp. destruct Hp as [Hb Hq].
  rewrite <- run_for_timeline with (n := fuel).
  unfold work. rewrite Hb, Hq. simpl. lia.
Qed.

(** *** Termination *)

Lemma horizon_nonneg now backlog : 0 <= horizon now backlog.
Proof. induction backlog as [|j b IH]; simpl; lia. Qed.

Lemma horizon_filter now f backlog :
  horizon now (filter f backlog) <= horizon now backlog.
Proof.
  induction backlog as [|j b IH]; simpl; [lia|].
  destruct (f j); simpl; lia.
Qed.

Lemma horizon_later now backlog :
  horizon (now + 1) backlog <= horizon now backlog.
Proof. induction backlog as [|j b IH]; simpl; lia. Qed.

Lemma horizon_idle now backlog :
  backlog <> [] ->
  Forall (fun j => late now j = true) backlog ->
  horizon (now + 1) backlog < horizon now backlog.
Proof.
  induction backlog as [|j b IH]; [congruence|]. intros _ Hall.
  inversion Hall as [|? ? Hj Hb]; subst.
  unfold late in Hj. apply negb_true_iff, Z.leb_gt in Hj.
  destruct b as [|j' b'].
  - simpl. lia.
  - assert (horizon (now + 1) (j' :: b') < horizon now (j' :: b'))
      by (apply IH; [congruence|assumption]).
    change (horizon (now + 1) (j :: j' :: b'))
      with (Z.max (arrivalTime j + 1 - (now + 1))
                  (horizon (now + 1) (j' :: b'))).
    change (horizon now (j :: j' :: b'))
      with (Z.max (arrivalTime j + 1 - now) (horizon now (j' :: b'))).
    lia.
Qed.

Lemma filter_late_all now backlog :
  Forall (fun j => late now j = true) (filter (late now) backlog).
Proof.
  apply Forall_forall. intros j Hj. apply filter_In in Hj. apply Hj.
Qed.

Lemma filter_arrived_nil now backlog :
  filter (arrived now) backlog = [] -> filter (late now) backlog = backlog.
Proof.
  induction backlog as [|j b IH]; simpl; [reflexivity|].
  unfold arrived at 1, late at 1.
  destruct (arrivalTime j <=? now); simpl; [discriminate|].
  intros H. rewrite IH by exact H. reflexivity.
Qed.

Lemma scheduled_at_nil sim :
  queue (scheduled_at sim) = [] ->
  queue (scheduler sim) = []
  /\ filter (arrived (currentTime sim)) (allJobs sim) = [].
Proof.
  intros H. pose proof (scheduled_at_queue sim) as Hp. rewrite H in Hp.
  apply Permutation_sym, Permutation_nil in Hp.
  apply map_eq_nil in Hp. apply app_eq_nil in Hp. exact Hp.
Qed.

Lemma tick_measure sim :
  pending sim = true -> measure (tick sim) <= measure sim - 1.
Proof.
  intros Hp. unfold measure.
  rewrite currentTime_tick, allJobs_tick.
  destruct (tick_work sim) as [(Hw & _ & Hnil)|(Hw & _)]; rewrite Hw.
  - destruct (scheduled_at_nil sim Hnil) as [Hq Harr].
    assert (Hb : allJobs sim <> []).
    { intros Hb. assert (pending sim = false)
        by (apply pending_false; auto). congruence. }
    pose proof (filter_late_all (currentTime sim) (allJobs sim)) as Hlate.
    rewrite (filter_arrived_nil _ _ Harr) in *.
    pose proof (horizon_idle _ _ Hb Hlate). lia.
  - pose proof (horizon_later (currentTime sim)
                  (filter (late (currentTime sim)) (allJobs sim))).
    pose proof (horizon_filter (currentTime sim) (late (currentTime sim))
                  (allJobs sim)).
    lia.
Qed.

Lemma has_work_invariant_tick sim :
  invariant has_work (fun _ => has_work) (fun _ => True) sim ->
  invariant has_work (fun _ => has_work) (fun _ => True) (tick sim).
Proof.
  apply invariant_tick; unfold has_work; intros; auto.
  rewrite remainingTime_execute in *. lia.
Qed.

Lemma total_has_work l :
  Forall has_work l -> 0 <= total remainingTime l
  /\ (total remainingTime l = 0 -> l = []).
Proof.
  unfold has_work. induction 1 as [|j l Hj Hl IH]; simpl; [auto with zarith|].
  split; [lia|]. intros; lia.
Qed.

Lemma run_for_terminates n :
  forall sim,
    invariant has_work (fun _ => has_work) (fun _ => True) sim ->
    measure sim <= Z.of_nat n ->
    pending (run_for n sim) = false.
Proof.
  induction n as [|n IH]; intros sim Hinv Hm.
  - simpl. destruct Hinv as (_ & HB & HQ & _).
    assert (Hall : Forall has_work (allJobs sim ++ queue (scheduler sim)))
      by (apply Forall_app; auto).
    destruct (total_has_work _ Hall) as [H0 Hnil].
    pose proof (horizon_nonneg (currentTime sim) (allJobs sim)).
    unfold measure, work in Hm.
    assert (Hnil' : allJobs sim ++ queue (scheduler sim) = [])
      by (apply Hnil; lia).
    apply app_eq_nil in Hnil'. apply pending_false. exact Hnil'.
  - simpl. destruct (pending sim) eqn:Hp; [|exact Hp].
    apply IH; [apply has_work_invariant_tick, Hinv|].
    pose proof (tick_measure sim Hp). lia.
Qed.

(** The loop leaves exactly after the first iteration count at which
    nothing is pending. *)
Lemma run_least fuel :
  forall sim sim',
    run fuel sim = Some sim' ->
    exists n, (n <= fuel)%nat
      /\ run n sim = Some sim'
      /\ forall k, (k < n)%nat -> run k sim = None.
Proof.
  induction fuel as [|fuel IH]; intros sim sim' H; simpl in H.
  - destruct (pending sim) eqn:Hp; [discriminate|]. exists 0%nat.
    simpl. rewrite Hp. repeat split; [lia|exact H|lia].
  - destruct (pending sim) eqn:Hp.
    + destruct (IH _ _ H) as (n & Hle & Hn & Hk). exists (S n).
      simpl. rewrite Hp. repeat split; [lia|exact Hn|].
      intros [|k] Hlt; simpl; rewrite Hp; [reflexivity|].
      apply Hk. lia.
    + exists 0%nat. simpl. rewrite Hp. repeat split; [lia|exact H|lia].
Qed.

Lemma run_terminates_from sim :
  invariant has_work (fun _ => has_work) (fun _ => True) sim ->
  exists n sim',
    run n sim = Some sim'
    /\ (forall k, (k < n)%nat -> run k sim = None)
    /\ allJobs sim' = []
    /\ hasJobs (scheduler sim') = false.
Proof.
  intros Hinv.
  assert (H0 : 0 <= measure sim).
  { destruct Hinv as (_ & HB & HQ & _).
    assert (Hall : Forall has_work (allJobs sim ++ queue (scheduler sim)))
      by (apply Forall_app; auto).
    destruct (total_has_work _ Hall) as [H0 _].
    pose proof (horizon_nonneg (currentTime sim) (allJobs sim)).
    unfold measure, work. lia. }
  pose proof (run_for_terminates (Z.to_nat (measure sim)) sim Hinv) as Hp.
  rewrite Z2Nat.id in Hp by exact H0. specialize (Hp (Z.le_refl _)).
  assert (Hrun : run (Z.to_nat (measure sim)) sim =
                 Some (run_for (Z.to_nat (measure sim)) sim))
    by (rewrite run_run_for, Hp; reflexivity).
  destruct (run_least _ _ _ Hrun) as (n & _ & Hn & Hk).
  exists n, (run_for (Z.to_nat (measure sim)) sim).
  apply pending_false in Hp. destruct Hp as [Hb Hq].
  repeat split; auto. apply hasJobs_false, Hq.
Qed.

(** *** The simulator built by [createSimulator] *)

Lemma queue_setJobs l s : Permutation l (queue (setJobs l s)).
Proof.
  unfold queue, setJobs. destruct (impl s); simpl;
    try apply Permutation_refl; apply std_sort_permutation.
Qed.

Lemma createSimulator_unfold ui :
  exists sched,
    createSimulator ui = mkSimulator 0 sched (jobs ui) [] []
    /\ Permutation (jobs ui) (queue sched)
    /\ scheduledJobs sched = [].
Proof.
  unfold createSimulator, new_Simulator.
  eexists. split; [reflexivity|]. split; [apply queue_setJobs|].
  unfold setJobs.
  destruct (currentAlgorithm ui) as [|[[|[]|]|[]|]|]; reflexivity.
Qed.

Lemma createSimulator_invariant B (Q : Z -> Job -> Prop) F ui :
  Forall B (jobs ui) -> Forall (Q 0) (jobs ui) ->
  invariant B Q F (createSimulator ui).
Proof.
  intros HB HQ. destruct (createSimulator_unfold ui) as (s & -> & Hp & _).
  unfold invariant; simpl. repeat split; [lia|exact HB| |constructor].
  eapply Permutation_Forall; eassumption.
Qed.

(** *** Metrics of finished jobs *)

Lemma calculateMetrics_spec job :
  turnaroundTime (calculateMetrics job) = completionTime job - arrivalTime job
  /\ waitingTime (calculateMetrics job) =
     turnaroundTime (calculateMetrics job) - burstTime job
  /\ set_waitingTime (waitingTime job)
       (set_turnaroundTime (turnaroundTime job) (calculateMetrics job)) = job.
Proof. destruct job; repeat split; reflexivity. Qed.

Lemma finishedJobs_tick sim :
  finishedJobs (tick sim) = finishedJobs sim
  \/ exists job,
      selected_at sim = Some job
      /\ remainingTime job = 1
      /\ finishedJobs (tick sim) =
         finishedJobs sim ++
           [calculateMetrics
              (set_completionTime (currentTime sim + 1)
                 (execute (currentTime sim) job))].
Proof.
  rewrite selected_at_scheduled, tick_unfold. cbv zeta.
  destruct (hasJobs (scheduled_at sim)); [|left; reflexivity].
  set (job0 := fst (getNextJob (scheduled_at sim))).
  destruct (Z.eqb_spec (remainingTime (execute (currentTime sim) job0)) 0)
    as [Hz|Hnz]; [|left; reflexivity].
  right. exists job0. rewrite remainingTime_execute in Hz.
  split; [reflexivity|]. split; [lia|reflexivity].
Qed.

Lemma finished_metrics now job :
  remainingTime job = 1 ->
  let done :=
    calculateMetrics (set_completionTime (now + 1) (execute now job)) in
  metrics_computed done /\ completionTime done = now + 1.
Proof.
  intros H. unfold metrics_computed, execute.
  destruct (startTime job =? -1); simpl; repeat split; lia.
Qed.


(** *** Selection on an empty queue *)

(** C10. Whatever the scheduler class, [getNextJob] on an empty queue
    returns the job [Job(-1, 0, 0, 0)], whose id is -1 and whose burst and
    remaining times are 0, and returns the scheduler as it was: queue and
    [scheduledJobs] unchanged. *)
Theorem getNextJob_empty s :
  queue s = [] ->
  fst (getNextJob s) = Job_of_id (-1) 0 0 0
  /\ jobId (fst (getNextJob s)) = -1
  /\ burstTime (fst (getNextJob s)) = 0
  /\ remainingTime (fst (getNextJob s)) = 0
  /\ snd (getNextJob s) = s
  /\ queue (snd (getNextJob s)) = []
  /\ scheduledJobs (snd (getNextJob s)) = scheduledJobs s.
Proof.
  unfold queue, getNextJob.
  destruct (impl s) as [q|q|q tq|q th inc] eqn:E; intros ->; simpl;
    rewrite ?E; repeat split; reflexivity.
Qed.

(** *** Shortest job first *)

Lemma is_SJF_same_policy s s' : same_policy s s' -> is_SJF s -> is_SJF s'.
Proof.
  unfold same_policy, is_SJF. destruct (impl s), (impl s'); tauto.
Qed.

Lemma same_policy_tick sim : same_policy (scheduler sim) (scheduler (tick sim)).
Proof.
  pose proof (scheduled_at_policy sim) as H2.
  pose proof (same_policy_getNextJob (scheduled_at sim)) as H3.
  rewrite tick_unfold. cbv zeta.
  destruct (hasJobs (scheduled_at sim)); [destruct (_ =? 0)|]; simpl.
  - eapply same_policy_trans; eassumption.
  - eapply same_policy_trans; [exact H2|].
    eapply same_policy_trans; [exact H3|apply same_policy_addJob].
  - exact H2.
Qed.

Lemma same_policy_run_for n :
  forall sim, same_policy (scheduler sim) (scheduler (run_for n sim)).
Proof.
  induction n as [|n IH]; intros sim; simpl; [apply same_policy_refl|].
  destruct (pending sim); [|apply same_policy_refl].
  eapply same_policy_trans; [apply same_policy_tick|apply IH].
Qed.

Lemma first_min_least key l before job after :
  first_min key l before job after ->
  In job l /\ forall other, In other l -> key job <= key other.
Proof.
  intros (-> & Hb & Ha). split; [apply in_elt|].
  intros other Hin. apply in_app_or in Hin.
  rewrite Forall_forall in Hb, Ha.
  destruct Hin as [Hin|[<-|Hin]]; [apply Hb in Hin| |apply Ha in Hin]; lia.
Qed.

(** C6. In a simulation driven by the SJF scheduler, at every iteration
    of the loop in which a job is selected, that job belongs to the ready
    queue of the iteration, no job of that queue has a strictly smaller
    [remainingTime], every job placed before it in the queue has a
    strictly larger one (it is the first minimum), and it is the job the
    iteration executes and records in the timeline. *)
Theorem SJF_selects_shortest sim n job :
  is_SJF (scheduler sim) ->
  selected_at (run_for n sim) = Some job ->
  (exists before after,
     first_min remainingTime (ready_at (run_for n sim)) before job after)
  /\ In job (ready_at (run_for n sim))
  /\ (forall other,
        In other (ready_at (run_for n sim)) ->
        remainingTime job <= remainingTime other)
  /\ ganttChart (tick (run_for n sim)) =
     ganttChart (run_for n sim) ++ [(jobId job, currentTime (run_for n sim))].
Proof.
  intros Hsjf Hsel.
  pose proof (same_policy_run_for n sim) as Hpol.
  set (now := run_for n sim) in *.
  assert (Hsjf' : is_SJF (scheduled_at now)).
  { eapply is_SJF_same_policy; [apply scheduled_at_policy|].
    eapply is_SJF_same_policy; eassumption. }
  rewrite ready_at_scheduled.
  assert (Hg : ganttChart (tick now) =
               ganttChart now ++ [(jobId job, currentTime now)])
    by (rewrite ganttChart_tick, Hsel; reflexivity).
  rewrite selected_at_scheduled in Hsel.
  destruct (hasJobs (scheduled_at now)) eqn:Hhas; [|discriminate].
  injection Hsel as <-. apply hasJobs_true in Hhas.
  destruct (getNextJob_SJF _ Hsjf' Hhas) as [Hmin _].
  destruct (first_min_least _ _ _ _ _ Hmin) as [Hin Hle].
  split; [eauto|]. auto.
Qed.

(** *** Priority with aging *)

Lemma sorted_first_min_head key l before job after :
  sorted_by key l -> first_min key l before job after -> before = [].
Proof.
  intros Hs (-> & Hb & _). destruct before as [|b0 bs]; [reflexivity|].
  exfalso. inversion Hb as [|? ? Hlt _]; subst.
  simpl in Hs. inversion Hs as [|? ? _ Hall]; subst.
  rewrite Forall_forall in Hall.
  specialize (Hall job (in_elt job bs after)).
  unfold less_by in Hall. apply Z.ltb_ge in Hall. lia.
Qed.

Lemma age_priority_bounds now th inc job :
  0 <= inc -> 0 <= priority job ->
  0 <= priority (age now th inc job) <= priority job.
Proof.
  intros Hinc Hp. rewrite age_unfold.
  destruct (th <? now - arrivalTime job); simpl; lia.
Qed.

Lemma queue_schedule_Priority th inc now s :
  is_Priority th inc s ->
  queue (schedule now s) =
  std_sort (less_by priority) (applyAging now th inc (queue s))
  /\ is_Priority th inc (schedule now s).
Proof.
  unfold is_Priority, queue, schedule.
  destruct (impl s) as [q|q|q tq|q th' inc'] eqn:E; try tauto.
  intros [-> ->]. simpl. auto.
Qed.

(** C7. A call [schedule(currentTime)] on the priority scheduler replaces
    every queued job by its aged version, where a job with
    [currentTime - arrivalTime > agingThreshold] gets priority
    [max(0, priority - agingIncrement)] and any other job is left as it
    is, and leaves the queue sorted by priority.  With a non-negative
    increment and a non-negative priority (the input contract), the aged
    priority is neither negative nor larger than before.  On a non-empty
    queue the [getNextJob] that follows removes and returns the job at the
    front of that queue, which is the first job of the queue of least
    priority value. *)
Theorem Priority_aging_and_selection th inc now s :
  is_Priority th inc s ->
  (forall job,
     age now th inc job =
     if th <? now - arrivalTime job
     then set_priority (Z.max 0 (priority job - inc)) job
     else job)
  /\ Permutation (map (age now th inc) (queue s)) (queue (schedule now s))
  /\ sorted_by priority (queue (schedule now s))
  /\ (forall job,
        0 <= inc -> 0 <= priority job ->
        0 <= priority (age now th inc job) <= priority job)
  /\ (queue s <> [] ->
      exists after,
        queue (schedule now s) = fst (getNextJob (schedule now s)) :: after
        /\ queue (snd (getNextJob (schedule now s))) = after
        /\ first_min priority (queue (schedule now s))
             [] (fst (getNextJob (schedule now s))) after
        /\ forall other,
             In other (queue (schedule now s)) ->
             priority (fst (getNextJob (schedule now s))) <= priority other).
Proof.
  intros Hp. destruct (queue_schedule_Priority th inc now s Hp) as [Hq Hp'].
  assert (Hperm : Permutation (map (age now th inc) (queue s))
                              (queue (schedule now s))).
  { rewrite Hq. apply std_sort_permutation. }
  assert (Hsorted : sorted_by priority (queue (schedule now s))).
  { rewrite Hq. apply std_sort_sorted. }
  split; [intros; apply age_unfold|].
  split; [exact Hperm|]. split; [exact Hsorted|].
  split; [intros; apply age_priority_bounds; assumption|].
  intros Hne.
  assert (Hne' : queue (schedule now s) <> []).
  { intros Hnil. rewrite Hnil in Hperm.
    apply Permutation_sym, Permutation_nil, map_eq_nil in Hperm. auto. }
  destruct (getNextJob_Priority th inc _ Hp' Hne') as [Hmin Herase].
  pose proof (sorted_first_min_head _ _ _ _ _ Hsorted Hmin) as Hhd.
  unfold erase in Herase. rewrite Hhd in *. simpl in Herase.
  destruct (first_min_least _ _ _ _ _ Hmin) as [_ Hle].
  destruct Hmin as (Heq & Hb & Ha).
  eexists. split; [exact Heq|]. split; [exact Herase|].
  split; [|exact Hle]. repeat split; assumption.
Qed.

(** *** FCFS and Round Robin *)

Lemma is_fifo_same_policy s s' : same_policy s s' -> is_fifo s -> is_fifo s'.
Proof.
  unfold same_policy, is_fifo. destruct (impl s), (impl s'); tauto.
Qed.

Lemma schedule_fifo now s : is_fifo s -> schedule now s = s.
Proof. unfold is_fifo, schedule. destruct (impl s); tauto. Qed.

Lemma getNextJob_fifo s :
  is_fifo s ->
  fst (getNextJob s) = hd noJob (queue s)
  /\ queue (snd (getNextJob s)) = tl (queue s)
  /\ scheduledJobs (snd (getNextJob s)) =
     match queue s with
     | [] => scheduledJobs s
     | job :: _ => scheduledJobs s ++ [job]
     end.
Proof.
  unfold is_fifo, queue, getNextJob.
  destruct (impl s) as [q|q|q tq|q th inc] eqn:E; try tauto; intros _;
    destruct q; simpl; rewrite ?E; auto.
Qed.

Lemma scheduledJobs_admission now backlog :
  forall s, scheduledJobs (snd (admission now backlog s)) = scheduledJobs s.
Proof.
  induction backlog as [|job rest IH]; intros s; simpl; [reflexivity|].
  destruct (arrivalTime job <=? now).
  - rewrite IH. apply scheduledJobs_addJob.
  - specialize (IH s). destruct (admission now rest s). exact IH.
Qed.

Lemma fifo_equiv_addJob job s s' :
  fifo_equiv s s' -> fifo_equiv (addJob job s) (addJob job s').
Proof.
  intros (H1 & H2 & Hq & Hs). unfold fifo_equiv.
  rewrite !queue_addJob, !scheduledJobs_addJob, Hq, Hs.
  repeat split;
    eauto using is_fifo_same_policy, same_policy_addJob.
Qed.

Lemma fifo_equiv_getNextJob s s' :
  fifo_equiv s s' ->
  fst (getNextJob s) = fst (getNextJob s')
  /\ fifo_equiv (snd (getNextJob s)) (snd (getNextJob s')).
Proof.
  intros (H1 & H2 & Hq & Hs).
  destruct (getNextJob_fifo s H1) as (Ha & Hb & Hc).
  destruct (getNextJob_fifo s' H2) as (Ha' & Hb' & Hc').
  unfold fifo_equiv. rewrite Ha, Ha', Hb, Hb', Hc, Hc', Hq, Hs.
  repeat split;
    eauto using is_fifo_same_policy, same_policy_getNextJob.
Qed.

Lemma fifo_equiv_scheduled_at a b :
  sim_equiv a b -> fifo_equiv (scheduled_at a) (scheduled_at b).
Proof.
  intros (Ht & (H1 & H2 & Hq & Hs) & Hb & _).
  assert (H1' : is_fifo (snd (admission (currentTime a) (allJobs a)
                                        (scheduler a))))
    by eauto using is_fifo_same_policy, admission_same_policy.
  assert (H2' : is_fifo (snd (admission (currentTime b) (allJobs b)
                                        (scheduler b))))
    by eauto using is_fifo_same_policy, admission_same_policy.
  unfold scheduled_at. rewrite !schedule_fifo by assumption.
  unfold fifo_equiv.
  rewrite !admission_queue, !scheduledJobs_admission.
  repeat split; try assumption; congruence.
Qed.

Lemma hasJobs_fifo_equiv s s' : fifo_equiv s s' -> hasJobs s = hasJobs s'.
Proof. intros (_ & _ & Hq & _). unfold hasJobs. rewrite Hq. reflexivity. Qed.

Lemma tick_sim_equiv a b : sim_equiv a b -> sim_equiv (tick a) (tick b).
Proof.
  intros Heq. pose proof (fifo_equiv_scheduled_at a b Heq) as H2.
  destruct (fifo_equiv_getNextJob _ _ H2) as [Hjob H3].
  pose proof (hasJobs_fifo_equiv _ _ H2) as Hhas.
  destruct Heq as (Ht & _ & Hb & Hf & Hg).
  rewrite !tick_unfold. cbv zeta.
  rewrite <- Hhas, <- Hjob, <- Ht, <- Hb, <- Hf, <- Hg.
  destruct (hasJobs (scheduled_at a));
    [destruct (_ =? 0)|]; unfold sim_equiv; simpl;
    (split; [reflexivity|]);
    (split; [auto using fifo_equiv_addJob|]); auto.
Qed.

Lemma pending_sim_equiv a b : sim_equiv a b -> pending a = pending b.
Proof.
  intros (_ & Hs & Hb & _). unfold pending.
  rewrite Hb, (hasJobs_fifo_equiv _ _ Hs). reflexivity.
Qed.

Lemma run_for_sim_equiv n :
  forall a b, sim_equiv a b -> sim_equiv (run_for n a) (run_for n b).
Proof.
  induction n as [|n IH]; intros a b Heq; simpl; [exact Heq|].
  rewrite <- (pending_sim_equiv a b Heq).
  destruct (pending a); [apply IH, tick_sim_equiv, Heq|exact Heq].
Qed.

Lemma outputs_sim_equiv a b : sim_equiv a b -> outputs a = outputs b.
Proof. intros (_ & _ & _ & Hf & Hg). unfold outputs. congruence. Qed.

Lemma run_sim_equiv fuel a b :
  sim_equiv a b ->
  option_map outputs (run fuel a) = option_map outputs (run fuel b).
Proof.
  intros Heq. rewrite !run_run_for.
  pose proof (run_for_sim_equiv fuel a b Heq) as Hn.
  rewrite <- (pending_sim_equiv _ _ Hn).
  destruct (pending (run_for fuel a)); simpl; [reflexivity|].
  f_equal. apply outputs_sim_equiv, Hn.
Qed.

Lemma sim_equiv_new s s' l :
  fifo_equiv s s' -> sim_equiv (new_Simulator s l) (new_Simulator s' l).
Proof. intros H. unfold sim_equiv, new_Simulator; simpl. auto. Qed.

Lemma fifo_equiv_setJobs_FCFS_RR l quantum :
  fifo_equiv (setJobs l new_FCFSScheduler)
             (setJobs l (new_RoundRobinScheduler quantum)).
Proof. unfold fifo_equiv, is_fifo; simpl. auto. Qed.

Lemma fifo_equiv_setJobs_RR_RR l q1 q2 :
  fifo_equiv (setJobs l (new_RoundRobinScheduler q1))
             (setJobs l (new_RoundRobinScheduler q2)).
Proof. unfold fifo_equiv, is_fifo; simpl. auto. Qed.

Lemma fifo_equiv_new_FCFS_RR quantum :
  fifo_equiv new_FCFSScheduler (new_RoundRobinScheduler quantum).
Proof. unfold fifo_equiv, is_fifo; simpl. auto. Qed.

Lemma fifo_equiv_new_RR_RR q1 q2 :
  fifo_equiv (new_RoundRobinScheduler q1) (new_RoundRobinScheduler q2).
Proof. unfold fifo_equiv, is_fifo; simpl. auto. Qed.

(** C4. On the same job list, the simulator built with the FCFS
    scheduler and the one built with the Round Robin scheduler (any
    quantum) produce the same timeline: whether built by
    [createSimulator] or from a newly constructed scheduler, after any
    number of iterations the two timelines are equal, and [run] returns
    for the one exactly when it returns for the other, with equal
    timelines. *)
Theorem FCFS_RoundRobin_same_timeline
    (l : list Job) (quantum th inc : Z) (file : string) (fuel : nat) :
  let fcfs := createSimulator (mkUIController l 0 quantum th inc file) in
  let rr := createSimulator (mkUIController l 2 quantum th inc file) in
  let fcfs0 := new_Simulator new_FCFSScheduler l in
  let rr0 := new_Simulator (new_RoundRobinScheduler quantum) l in
  option_map ganttChart (run fuel fcfs) = option_map ganttChart (run fuel rr)
  /\ ganttChart (run_for fuel fcfs) = ganttChart (run_for fuel rr)
  /\ option_map ganttChart (run fuel fcfs0)
     = option_map ganttChart (run fuel rr0)
  /\ ganttChart (run_for fuel fcfs0) = ganttChart (run_for fuel rr0).
Proof.
  intros fcfs rr fcfs0 rr0.
  assert (H : sim_equiv fcfs rr)
    by apply sim_equiv_new, fifo_equiv_setJobs_FCFS_RR.
  assert (H0 : sim_equiv fcfs0 rr0)
    by apply sim_equiv_new, fifo_equiv_new_FCFS_RR.
  assert (Hout : forall a b,
            option_map outputs (run fuel a) = option_map outputs (run fuel b)
            -> option_map ganttChart (run fuel a)
               = option_map ganttChart (run fuel b)).
  { intros a b E. destruct (run fuel a), (run fuel b); simpl in *;
      try discriminate; [|reflexivity].
    unfold outputs in E. congruence. }
  repeat split.
  - apply Hout, run_sim_equiv, H.
  - apply (run_for_sim_equiv fuel _ _ H).
  - apply Hout, run_sim_equiv, H0.
  - apply (run_for_sim_equiv fuel _ _ H0).
Qed.

(** C5. The quantum given to the Round Robin scheduler has no effect on
    a simulation: for any two quantum values and the same job list, the
    two simulators (built by [createSimulator] or from a newly constructed
    scheduler) have equal timelines and equal finished-job sequences after
    any number of iterations, and [run] returns for both or for neither,
    with equal outputs.  Each iteration records at most one unit of
    execution before the next selection. *)
Theorem RoundRobin_quantum_irrelevant
    (l : list Job) (q1 q2 th inc : Z) (file : string) (fuel : nat) :
  let rr1 := createSimulator (mkUIController l 2 q1 th inc file) in
  let rr2 := createSimulator (mkUIController l 2 q2 th inc file) in
  let rr1' := new_Simulator (new_RoundRobinScheduler q1) l in
  let rr2' := new_Simulator (new_RoundRobinScheduler q2) l in
  option_map outputs (run fuel rr1) = option_map outputs (run fuel rr2)
  /\ outputs (run_for fuel rr1) = outputs (run_for fuel rr2)
  /\ option_map outputs (run fuel rr1') = option_map outputs (run fuel rr2')
  /\ outputs (run_for fuel rr1') = outputs (run_for fuel rr2')
  /\ (forall sim,
        ganttChart (tick sim) = ganttChart sim
        \/ exists job,
            selected_at sim = Some job
            /\ ganttChart (tick sim) =
               ganttChart sim ++ [(jobId job, currentTime sim)]).
Proof.
  intros rr1 rr2 rr1' rr2'.
  assert (H : sim_equiv rr1 rr2)
    by apply sim_equiv_new, fifo_equiv_setJobs_RR_RR.
  assert (H0 : sim_equiv rr1' rr2')
    by apply sim_equiv_new, fifo_equiv_new_RR_RR.
  repeat split.
  - apply run_sim_equiv, H.
  - apply outputs_sim_equiv, run_for_sim_equiv, H.
  - apply run_sim_equiv, H0.
  - apply outputs_sim_equiv, run_for_sim_equiv, H0.
  - intros sim. rewrite ganttChart_tick.
    destruct (selected_at sim) as [job|]; eauto.
Qed.

(** *** Termination on well-formed input *)

Lemma entry_invariant B (Q : Z -> Job -> Prop) F ui sim :
  entry ui sim ->
  Forall B (jobs ui) -> Forall (Q 0) (jobs ui) ->
  invariant B Q F sim.
Proof.
  intros [->|(s & Hq & ->)] HB HQ.
  - apply createSimulator_invariant; assumption.
  - unfold invariant, new_Simulator; simpl. rewrite Hq.
    repeat split; [lia|exact HB|constructor|constructor].
Qed.

Lemma allJobs_tick_length sim :
  (length (allJobs (tick sim)) <= length (allJobs sim))%nat.
Proof. rewrite allJobs_tick. apply filter_length_le. Qed.

(** C8. For well-formed input (every job fresh from its constructor,
    with non-negative arrival time and a burst time of at least 1),
    [run] terminates, on the simulator of [createSimulator] as on one
    built from a scheduler with an empty queue: some number [n] of
    iterations makes the loop exit, no smaller number does, and at the
    exit the backlog and the ready queue are both empty.  The reasons: an
    iteration never lengthens the backlog, and an iteration that selects a
    job takes one unit off that job's remaining time and off the total
    pending work. *)
Theorem run_terminates ui sim :
  Forall well_formed (jobs ui) ->
  entry ui sim ->
  (exists n sim',
     run n sim = Some sim'
     /\ (forall k, (k < n)%nat -> run k sim = None)
     /\ allJobs sim' = []
     /\ hasJobs (scheduler sim') = false)
  /\ (forall s, (length (allJobs (tick s)) <= length (allJobs s))%nat)
  /\ (forall s job,
        selected_at s = Some job ->
        remainingTime (execute (currentTime s) job) = remainingTime job - 1
        /\ work (tick s) = work s - 1).
Proof.
  intros Hwf Hentry. split; [|split].
  - apply run_terminates_from.
    assert (Hw : Forall has_work (jobs ui)).
    { eapply Forall_impl; [|exact Hwf].
      intros j (_ & Hb & Hr & _). unfold has_work. lia. }
    eapply entry_invariant; eassumption.
  - apply allJobs_tick_length.
  - intros s job Hsel. split; [apply remainingTime_execute|].
    destruct (tick_work s) as [(_ & _ & Hnil)|(Hw & _)]; [|exact Hw].
    rewrite selected_at_scheduled in Hsel.
    apply hasJobs_false in Hnil. rewrite Hnil in Hsel. discriminate.
Qed.

(** *** Jobs without work *)

Lemma never_done_invariant_tick sim :
  invariant never_done (fun _ => never_done)
            (fun job => 1 <= burstTime job) sim ->
  invariant never_done (fun _ => never_done)
            (fun job => 1 <= burstTime job) (tick sim).
Proof.
  apply invariant_tick; unfold never_done; intros; auto.
  - rewrite remainingTime_execute, burstTime_execute in *. lia.
  - rewrite remainingTime_execute in *.
    change (burstTime (calculateMetrics
                         (set_completionTime (t + 1) (execute t j))))
      with (burstTime (execute t j)).
    rewrite burstTime_execute. lia.
Qed.

Lemma workless_aging_of now s job :
  workless job -> workless (aging_of now s job).
Proof.
  destruct (aging_of_cases now s job) as [->|[p ->]]; auto.
Qed.

Lemma Exists_permutation (P : Job -> Prop) l l' :
  Permutation l l' -> Exists P l -> Exists P l'.
Proof.
  intros Hp H. apply Exists_exists in H. destruct H as (x & Hin & Hx).
  apply Exists_exists. exists x. split; [|exact Hx].
  eapply Permutation_in; eassumption.
Qed.

Lemma Exists_filter_split (P : Job -> Prop) now l :
  Exists P l ->
  Exists P (filter (late now) l) \/ Exists P (filter (arrived now) l).
Proof.
  rewrite !Exists_exists. intros (x & Hin & Hx).
  destruct (arrived now x) eqn:E.
  - right. exists x. split; [apply filter_In; auto|exact Hx].
  - left. exists x. split; [|exact Hx]. apply filter_In. split; [exact Hin|].
    unfold late. unfold arrived in E. rewrite E. reflexivity.
Qed.

Lemma workless_tick sim :
  Exists workless (allJobs sim ++ queue (scheduler sim)) ->
  Exists workless (allJobs (tick sim) ++ queue (scheduler (tick sim))).
Proof.
  intros H. rewrite allJobs_tick. apply Exists_app.
  apply Exists_app in H.
  assert (Hcases :
    Exists workless (filter (late (currentTime sim)) (allJobs sim))
    \/ Exists workless (queue (scheduled_at sim))).
  { assert (Hq : Exists workless
               (queue (scheduler sim)
                ++ filter (arrived (currentTime sim)) (allJobs sim))
             -> Exists workless (queue (scheduled_at sim))).
    { intros Hq. eapply Exists_permutation; [apply scheduled_at_queue|].
      apply Exists_exists in Hq. destruct Hq as (x & Hin & Hx).
      apply Exists_exists. eexists. split; [apply in_map, Hin|].
      apply workless_aging_of, Hx. }
    destruct H as [H|H].
    - destruct (Exists_filter_split _ (currentTime sim) _ H) as [Hl|Ha];
        [left; exact Hl|].
      right. apply Hq, Exists_app. auto.
    - right. apply Hq, Exists_app. auto. }
  destruct Hcases as [Hl|Hq]; [left; exact Hl|]. right.
  rewrite tick_unfold. cbv zeta.
  destruct (hasJobs (scheduled_at sim)) eqn:Hhas.
  - apply hasJobs_true in Hhas.
    destruct (getNextJob_queue _ Hhas) as (before & after & Heq & Hq' & _).
    set (job0 := fst (getNextJob (scheduled_at sim))) in *.
    rewrite Heq in Hq. apply Exists_app in Hq.
    rewrite Exists_cons in Hq.
    destruct (Z.eqb_spec (remainingTime (execute (currentTime sim) job0)) 0)
      as [Hz|Hnz]; simpl; rewrite ?queue_addJob, Hq'.
    + rewrite remainingTime_execute in Hz. apply Exists_app.
      destruct Hq as [Hb|[[_ Hr]|Ha]]; [auto|lia|auto].
    + apply Exists_app. destruct Hq as [Hb|[[Hbu Hr]|Ha]].
      * left. apply Exists_app. auto.
      * right. constructor. unfold workless.
        rewrite remainingTime_execute, burstTime_execute. lia.
      * left. apply Exists_app. auto.
  - apply hasJobs_false in Hhas. rewrite Hhas in Hq. inversion Hq.
Qed.

Lemma workless_pending sim :
  Exists workless (allJobs sim ++ queue (scheduler sim)) ->
  pending sim = true.
Proof.
  intros H. destruct (pending sim) eqn:E; [reflexivity|].
  apply pending_false in E. destruct E as [E1 E2].
  rewrite E1, E2 in H. inversion H.
Qed.

Lemma workless_run fuel :
  forall sim,
    Exists workless (allJobs sim ++ queue (scheduler sim)) ->
    run fuel sim = None.
Proof.
  induction fuel as [|fuel IH]; intros sim H; simpl;
    rewrite (workless_pending sim H); [reflexivity|].
  apply IH, workless_tick, H.
Qed.

(** C9 (as amended).  For every input, of jobs fresh from their
    constructor, that contains a job with burst time 0, that job never
    finishes: after any number of iterations no record of
    [finishedJobs] has burst time 0 (every finished job has a burst time
    of at least 1, and the loop never changes a burst time).  The
    amended claim says nothing about whether the job is selected. *)
Theorem zero_burst_never_finishes ui sim n :
  Forall constructed (jobs ui) ->
  entry ui sim ->
  (forall job, In job (finishedJobs (run_for n sim)) -> burstTime job <> 0)
  /\ (forall job, In job (finishedJobs (run_for n sim)) -> 1 <= burstTime job).
Proof.
  intros Hc Hentry.
  assert (Hnd : Forall never_done (jobs ui)).
  { eapply Forall_impl; [|exact Hc].
    intros j (Hr & _). unfold never_done. lia. }
  assert (Hinv : invariant never_done (fun _ => never_done)
                   (fun job => 1 <= burstTime job) (run_for n sim)).
  { apply run_for_preserves; [apply never_done_invariant_tick|].
    eapply entry_invariant; eassumption. }
  destruct Hinv as (_ & _ & _ & HF). rewrite Forall_forall in HF.
  split; [intros job Hin; apply HF in Hin; lia|exact HF].
Qed.

(** X26. With a job of burst time 0 (or less) among jobs fresh from
    their constructor, [run] never returns, whatever the scheduler: such
    a job stays in the backlog or in the queue for ever, its remaining
    time never being 0 after an execution. *)
Theorem zero_burst_run_never_returns ui sim fuel :
  Forall constructed (jobs ui) ->
  entry ui sim ->
  Exists (fun job => burstTime job <= 0) (jobs ui) ->
  run fuel sim = None.
Proof.
  intros Hc Hentry Hex. apply workless_run.
  assert (Hw : Exists workless (jobs ui)).
  { apply Exists_exists in Hex. destruct Hex as (x & Hin & Hx).
    apply Exists_exists. exists x. split; [exact Hin|].
    rewrite Forall_forall in Hc. destruct (Hc x Hin) as (Hr & _).
    unfold workless. lia. }
  apply Exists_app. left.
  destruct Hentry as [->|(s & _ & ->)]; [|exact Hw].
  destruct (createSimulator_unfold ui) as (s & -> & _). exact Hw.
Qed.

(** *** The timeline and the work of the jobs *)

Lemma total_constructed l :
  Forall constructed l -> total remainingTime l = total burstTime l.
Proof.
  induction 1 as [|j l (Hr & _) _ IH]; simpl; [reflexivity|].
  rewrite Hr, IH. reflexivity.
Qed.

(** X21. On a scheduler that starts with an empty queue, [run] leaves one
    timeline record per unit of burst time. *)
Lemma timeline_fresh ui sim fuel sim' :
  Forall constructed (jobs ui) ->
  fresh_simulator ui sim ->
  run fuel sim = Some sim' ->
  Z.of_nat (length (ganttChart sim')) = total burstTime (jobs ui).
Proof.
  intros Hc (s & Hq & ->) Hrun. rewrite (run_timeline _ _ _ Hrun).
  unfold work, new_Simulator; simpl. rewrite Hq, app_nil_r.
  apply total_constructed, Hc.
Qed.

(** X22. [createSimulator] loads the jobs into the scheduler with [setJobs]
    and also hands them to the simulator as backlog, so [run] executes
    every job twice. *)
Lemma timeline_createSimulator ui fuel sim' :
  Forall constructed (jobs ui) ->
  run fuel (createSimulator ui) = Some sim' ->
  Z.of_nat (length (ganttChart sim')) = 2 * total burstTime (jobs ui).
Proof.
  intros Hc Hrun. rewrite (run_timeline _ _ _ Hrun).
  destruct (createSimulator_unfold ui) as (s & -> & Hp & _).
  unfold work. cbn [allJobs scheduler ganttChart length].
  rewrite total_app, <- (total_permutation _ _ _ Hp).
  rewrite (total_constructed _ Hc). lia.
Qed.

(** C1 (the code departs from the claim).  For the single job
    (id 1, arrival 0, burst 1) under FCFS, the simulator built by
    [createSimulator] returns after two iterations with two timeline
    records, while the burst times add up to 1. *)
Theorem createSimulator_doubles_timeline :
  total burstTime (jobs ui_one_unit) = 1
  /\ option_map ganttChart (run 2 (createSimulator ui_one_unit))
     = Some [(1, 0); (1, 1)]
  /\ option_map (fun sim => length (ganttChart sim))
       (run 2 (createSimulator ui_one_unit)) = Some 2%nat.
Proof. repeat split. Qed.

(** *** The times of finished jobs *)

Lemma on_time_invariant_tick sim :
  invariant constructed on_time times_consistent sim ->
  invariant constructed on_time times_consistent (tick sim).
Proof.
  apply invariant_tick.
  - intros t j Ht (Hr & Hs & _) Ha. unfold on_time. repeat split; [lia|lia|].
    left. auto.
  - intros t j p H. exact H.
  - intros t j Ht (Ha & Hw & Hs). unfold on_time.
    repeat split; [lia|lia|]. destruct Hs as [Hs|Hs]; [left|right]; lia.
  - intros t j Ht (Ha & Hw & Hs) Hnz. unfold on_time.
    rewrite arrivalTime_execute, burstTime_execute, remainingTime_execute,
      startTime_execute.
    repeat split; [lia|lia|]. right.
    destruct Hs as [[Hs _]|Hs].
    + rewrite Hs. simpl. lia.
    + destruct (Z.eqb_spec (startTime j) (-1)); lia.
  - intros t j Ht (Ha & Hw & Hs) Hz. rewrite remainingTime_execute in Hz.
    unfold times_consistent, calculateMetrics, execute.
    destruct (Z.eqb_spec (startTime j) (-1)) as [He|Hne]; simpl;
      repeat split; lia.
Qed.

(** X23. On a scheduler that starts with an empty queue, every finished job
    has [arrivalTime <= startTime <= completionTime] and a non-negative
    waiting time. *)
Lemma times_fresh ui sim n :
  Forall constructed (jobs ui) ->
  fresh_simulator ui sim ->
  Forall times_consistent (finishedJobs (run_for n sim)).
Proof.
  intros Hc (s & Hq & ->).
  assert (Hgen : forall m a,
            invariant constructed on_time times_consistent a ->
            invariant constructed on_time times_consistent (run_for m a)).
  { induction m as [|m IH]; intros a Ha; simpl; [exact Ha|].
    destruct (pending a); [|exact Ha].
    apply IH, on_time_invariant_tick, Ha. }
  apply (Hgen n (new_Simulator s (jobs ui))).
  unfold invariant, new_Simulator; simpl. rewrite Hq.
  repeat split; [lia|exact Hc|constructor|constructor].
Qed.

(** The start time is stamped at the first execution and never again:
    the loop runs at non-negative times, so a stamped start time is not
    the sentinel. *)
Lemma startTime_set_once now job :
  0 <= now ->
  (startTime job = -1 -> startTime (execute now job) = now)
  /\ (startTime job <> -1 -> startTime (execute now job) = startTime job)
  /\ (0 <= startTime job -> startTime (execute now job) = startTime job)
  /\ (startTime job = -1 \/ 0 <= startTime job ->
      0 <= startTime (execute now job)).
Proof.
  intros Hn. rewrite startTime_execute.
  destruct (Z.eqb_spec (startTime job) (-1)); repeat split; intros; lia.
Qed.

(** C2 (the code departs from the claim).  For the single job
    (id 1, arrival 5, burst 1) under FCFS, the simulator built by
    [createSimulator] returns after six iterations (a fuel of 7 is
    given); the first finished record was started at time 0, before the
    arrival time 5, and has waiting time -5. *)
Theorem createSimulator_runs_before_arrival :
  option_map
    (fun sim =>
       map (fun job => (arrivalTime job, startTime job,
                        completionTime job, waitingTime job))
           (finishedJobs sim))
    (run 7 (createSimulator ui_late_arrival))
  = Some [(5, 0, 1, -5); (5, 5, 6, 0)].
Proof. reflexivity. Qed.

(** ** Further properties of the engine *)


Lemma StronglySorted_snoc {A : Type} (R : A -> A -> Prop) l y :
  StronglySorted R l -> Forall (fun x => R x y) l ->
  StronglySorted R (l ++ [y]).
Proof.
  induction 1 as [|x l Hl IH Hx]; intros Hy; simpl.
  - repeat constructor.
  - inversion Hy; subst. constructor; [apply IH; assumption|].
    apply Forall_app. split; [exact Hx|]. repeat constructor. assumption.
Qed.

(** *** The timeline *)

Lemma chart_in_order_tick sim : chart_in_order sim -> chart_in_order (tick sim).
Proof.
  intros (H0 & Hs & Hb & Hl). unfold chart_in_order.
  rewrite currentTime_tick, ganttChart_tick.
  destruct (selected_at sim) as [job|].
  - rewrite map_app, length_app. simpl. repeat split; try lia.
    + apply StronglySorted_snoc; [exact Hs|].
      apply Forall_map. eapply Forall_impl; [|exact Hb]. simpl; intros; lia.
    + apply Forall_app. split.
      * eapply Forall_impl; [|exact Hb]. simpl; intros; lia.
      * repeat constructor; simpl; lia.
  - repeat split; try lia; try assumption.
    eapply Forall_impl; [|exact Hb]. simpl; intros; lia.
Qed.

(** X1. In a simulator started by the constructor (time 0, empty
    timeline), whatever scheduler and jobs it is given, after any number
    of iterations the time units of the timeline records are strictly
    increasing, so no time unit is recorded twice; they lie between 0 and
    the current time; and there are at most as many records as time units
    elapsed. *)
Theorem timeline_in_time_order sched l n :
  StronglySorted Z.lt
    (map snd (ganttChart (run_for n (new_Simulator sched l))))
  /\ Forall (fun r => 0 <= snd r
                      < currentTime (run_for n (new_Simulator sched l)))
            (ganttChart (run_for n (new_Simulator sched l)))
  /\ Z.of_nat (length (ganttChart (run_for n (new_Simulator sched l))))
     <= currentTime (run_for n (new_Simulator sched l)).
Proof.
  assert (H : chart_in_order (run_for n (new_Simulator sched l))).
  { apply run_for_preserves; [apply chart_in_order_tick|].
    unfold chart_in_order, new_Simulator; simpl.
    repeat split; try lia; constructor. }
  destruct H as (_ & Hs & Hb & Hl). auto.
Qed.

(** X2. The clock advances by one at every iteration, idle or not: if
    [run] returns after exactly [n] iterations of the loop, the current
    time has grown by [n]. *)
Theorem clock_counts_iterations n :
  forall sim sim',
    run n sim = Some sim' ->
    (forall k, (k < n)%nat -> run k sim = None) ->
    currentTime sim' = currentTime sim + Z.of_nat n.
Proof.
  induction n as [|n IH]; intros sim sim' Hrun Hleast.
  - simpl in Hrun. destruct (pending sim); [discriminate|].
    injection Hrun as <-. simpl. lia.
  - assert (Hp : pending sim = true).
    { specialize (Hleast 0%nat ltac:(lia)). simpl in Hleast.
      destruct (pending sim); [reflexivity|discriminate]. }
    simpl in Hrun. rewrite Hp in Hrun.
    rewrite (IH (tick sim) sim' Hrun), currentTime_tick; [lia|].
    intros k Hk. specialize (Hleast (S k) ltac:(lia)).
    simpl in Hleast. rewrite Hp in Hleast. exact Hleast.
Qed.

Lemma selected_at_none sim :
  selected_at sim = None <->
  queue (scheduler sim) = []
  /\ Forall (fun job => currentTime sim < arrivalTime job) (allJobs sim).
Proof.
  rewrite selected_at_scheduled. split.
  - destruct (hasJobs (scheduled_at sim)) eqn:Hhas; [discriminate|].
    intros _. apply hasJobs_false in Hhas.
    destruct (scheduled_at_nil sim Hhas) as [Hq Ha]. split; [exact Hq|].
    pose proof (filter_late_all (currentTime sim) (allJobs sim)) as Hl.
    rewrite (filter_arrived_nil _ _ Ha) in Hl.
    eapply Forall_impl; [|exact Hl]. intros j Hj.
    unfold late in Hj. apply negb_true_iff, Z.leb_gt in Hj. exact Hj.
  - intros [Hq Hl].
    assert (Ha : filter (arrived (currentTime sim)) (allJobs sim) = []).
    { induction Hl as [|j b Hj Hb IH]; simpl; [reflexivity|].
      unfold arrived at 1. apply Z.leb_gt in Hj. rewrite Hj. exact IH. }
    pose proof (scheduled_at_queue sim) as Hp.
    rewrite Hq, Ha in Hp. simpl in Hp. apply Permutation_nil in Hp.
    apply hasJobs_false in Hp. rewrite Hp. reflexivity.
Qed.

(** X3. The processor idles only when there is nothing to run: an
    iteration leaves the timeline as it is exactly when the queue of the
    scheduler is empty and every job of the backlog arrives later than
    the current time; otherwise it appends one record, for the selected
    job at the current time. *)
Theorem idle_only_when_nothing_ready sim :
  (ganttChart (tick sim) = ganttChart sim <->
   queue (scheduler sim) = []
   /\ Forall (fun job => currentTime sim < arrivalTime job) (allJobs sim))
  /\ (ganttChart (tick sim) <> ganttChart sim ->
      exists job,
        selected_at sim = Some job
        /\ ganttChart (tick sim) =
           ganttChart sim ++ [(jobId job, currentTime sim)]).
Proof.
  rewrite <- selected_at_none, ganttChart_tick.
  destruct (selected_at sim) as [job|].
  - split; [|eauto]. split; [|discriminate]. intros H.
    apply (f_equal (@length _)) in H. rewrite length_app in H.
    simpl in H. lia.
  - split; [tauto|congruence].
Qed.

(** *** The finished jobs *)

Lemma finished_in_order_tick sim :
  finished_in_order sim -> finished_in_order (tick sim).
Proof.
  intros (H0 & Hs & Hb). unfold finished_in_order.
  rewrite currentTime_tick.
  assert (Hb' : Forall (fun job => 0 < completionTime job
                                   <= currentTime sim + 1)
                       (finishedJobs sim)).
  { eapply Forall_impl; [|exact Hb]. simpl; intros; lia. }
  destruct (finishedJobs_tick sim) as [->|(job & _ & Hr & ->)].
  - repeat split; [lia|assumption|assumption].
  - destruct (finished_metrics (currentTime sim) job Hr) as [_ Hc].
    rewrite map_app. simpl map. repeat split; [lia| |].
    + apply StronglySorted_snoc; [exact Hs|].
      apply Forall_map. eapply Forall_impl; [|exact Hb].
      intros j Hj. cbv beta in *. rewrite ?Hc. lia.
    + apply Forall_app. split; [exact Hb'|].
      constructor; [rewrite ?Hc; lia|constructor].
Qed.

(** X4. In a simulator started by the constructor, the finished jobs
    are listed in the order of their completion: their completion times
    are strictly increasing along [finishedJobs] (at most one job
    finishes per time unit), positive, and not later than the current
    time. *)
Theorem finished_in_completion_order sched l n :
  StronglySorted Z.lt
    (map completionTime (finishedJobs (run_for n (new_Simulator sched l))))
  /\ Forall (fun job => 0 < completionTime job
                        <= currentTime (run_for n (new_Simulator sched l)))
            (finishedJobs (run_for n (new_Simulator sched l))).
Proof.
  assert (H : finished_in_order (run_for n (new_Simulator sched l))).
  { apply run_for_preserves; [apply finished_in_order_tick|].
    unfold finished_in_order, new_Simulator; simpl.
    repeat split; try lia; constructor. }
  destruct H as (_ & Hs & Hb). auto.
Qed.

(** *** No job is lost, duplicated or altered in what identifies it *)

Lemma identity_execute now job : identity (execute now job) = identity job.
Proof. unfold execute. destruct (startTime job =? -1); reflexivity. Qed.

Lemma identity_aging_of now s job :
  identity (aging_of now s job) = identity job.
Proof.
  destruct (aging_of_cases now s job) as [->|[p ->]]; reflexivity.
Qed.

Lemma filter_split_permutation now (l : list Job) :
  Permutation l (filter (late now) l ++ filter (arrived now) l).
Proof.
  induction l as [|x l IH]; simpl; [constructor|].
  unfold late at 1, arrived at 1. destruct (arrivalTime x <=? now); simpl.
  - apply Permutation_cons_app, IH.
  - apply perm_skip, IH.
Qed.

Lemma scheduled_at_identity sim :
  Permutation
    (map identity (filter (late (currentTime sim)) (allJobs sim)
                   ++ queue (scheduled_at sim)))
    (map identity (allJobs sim ++ queue (scheduler sim))).
Proof.
  pose proof (Permutation_map identity (scheduled_at_queue sim)) as H1.
  rewrite map_map in H1.
  rewrite (map_ext _ identity
             (identity_aging_of (currentTime sim) (scheduler sim))) in H1.
  pose proof (Permutation_map identity
                (filter_split_permutation (currentTime sim) (allJobs sim)))
    as H2.
  rewrite !map_app in *.
  eapply perm_trans; [apply Permutation_app_head, Permutation_sym, H1|].
  eapply perm_trans;
    [apply Permutation_app_head, Permutation_app_comm|].
  rewrite app_assoc. apply Permutation_app_tail, Permutation_sym, H2.
Qed.

Lemma live_tick_identity sim :
  Permutation (map identity (live (tick sim))) (map identity (live sim)).
Proof.
  unfold live at 2. rewrite map_app.
  eapply perm_trans;
    [|apply Permutation_app_head, scheduled_at_identity].
  unfold live. rewrite tick_unfold. cbv zeta.
  destruct (hasJobs (scheduled_at sim)) eqn:Hhas.
  - apply hasJobs_true in Hhas.
    destruct (getNextJob_queue _ Hhas) as (before & after & Hq & Hq' & _).
    set (job0 := fst (getNextJob (scheduled_at sim))) in *.
    rewrite Hq.
    destruct (remainingTime (execute (currentTime sim) job0) =? 0);
      cbn [finishedJobs allJobs scheduler].
    + rewrite Hq'. rewrite !map_app. cbn [map].
      change (identity (calculateMetrics
                (set_completionTime (currentTime sim + 1)
                   (execute (currentTime sim) job0))))
        with (identity (execute (currentTime sim) job0)).
      rewrite identity_execute, <- !app_assoc. apply Permutation_app_head.
      cbn [app]. rewrite !app_assoc. apply Permutation_middle.
    + rewrite queue_addJob, Hq'. rewrite !map_app. cbn [map].
      rewrite identity_execute. do 2 apply Permutation_app_head.
      rewrite <- app_assoc. apply Permutation_app_head.
      apply Permutation_sym, Permutation_cons_append.
  - cbn [finishedJobs allJobs scheduler]. rewrite !map_app.
    apply Permutation_refl.
Qed.

(** X5. The loop neither loses nor duplicates nor invents a job, and
    never changes what identifies one (id, name, arrival time, burst
    time): after any number of iterations the jobs held by the simulator
    (finished, backlog and queue together) are, by identity, a
    rearrangement of those it held at the start; so when [run] returns,
    the finished collection holds each of them exactly once, and nothing
    else. *)
Theorem jobs_conserved fuel sim sim' :
  run fuel sim = Some sim' ->
  Permutation (map identity (finishedJobs sim')) (map identity (live sim))
  /\ forall n,
       Permutation (map identity (live (run_for n sim)))
                   (map identity (live sim)).
Proof.
  intros Hrun.
  assert (Hn : forall n,
             Permutation (map identity (live (run_for n sim)))
                         (map identity (live sim))).
  { intros n.
    apply (run_for_preserves
             (fun s => Permutation (map identity (live s))
                                   (map identity (live sim))));
      [|apply Permutation_refl].
    intros s Hs. eapply perm_trans; [apply live_tick_identity|exact Hs]. }
  split; [|exact Hn].
  apply run_some in Hrun. destruct Hrun as [-> Hp].
  apply pending_false in Hp. destruct Hp as [Hb Hq].
  specialize (Hn fuel). unfold live at 1 in Hn.
  rewrite Hb, Hq, !app_nil_r in Hn. exact Hn.
Qed.

(** *** Properties kept by every job *)

Lemma live_forall_tick (P : Job -> Prop) sim :
  (forall now s job, P job -> P (aging_of now s job)) ->
  (forall now job, P job -> P (execute now job)) ->
  (forall t job, P job -> P (calculateMetrics (set_completionTime t job))) ->
  Forall P (live sim) ->
  Forall P (live (tick sim))
  /\ forall job, selected_at sim = Some job -> P job.
Proof.
  intros Hage Hexec Hdone Hlive. unfold live in Hlive.
  apply Forall_app in Hlive. destruct Hlive as [Hf Hlive].
  apply Forall_app in Hlive. destruct Hlive as [Hb Hq].
  assert (Hl : Forall P (filter (late (currentTime sim)) (allJobs sim))).
  { rewrite Forall_forall in *. intros j Hj. apply filter_In in Hj.
    apply Hb, Hj. }
  assert (Hq2 : Forall P (queue (scheduled_at sim))).
  { eapply Permutation_Forall; [apply scheduled_at_queue|].
    apply Forall_map. apply Forall_app. split.
    - eapply Forall_impl; [|exact Hq]. intros; apply Hage; assumption.
    - rewrite Forall_forall in *. intros j Hj. apply filter_In in Hj.
      apply Hage, Hb, Hj. }
  rewrite selected_at_scheduled. unfold live. rewrite tick_unfold. cbv zeta.
  destruct (hasJobs (scheduled_at sim)) eqn:Hhas.
  - apply hasJobs_true in Hhas.
    destruct (getNextJob_queue _ Hhas) as (before & after & Heq & Hq' & _).
    set (job0 := fst (getNextJob (scheduled_at sim))) in *.
    rewrite Heq in Hq2. apply Forall_app in Hq2. destruct Hq2 as [Hbe Hja].
    inversion Hja as [|? ? Hj Haf]; subst.
    split; [|intros job [= <-]; exact Hj].
    destruct (remainingTime (execute (currentTime sim) job0) =? 0);
      cbn [finishedJobs allJobs scheduler];
      rewrite ?queue_addJob, Hq'; repeat (apply Forall_app; split);
      auto.
  - split; [|discriminate]. cbn [finishedJobs allJobs scheduler].
    repeat (apply Forall_app; split); auto.
Qed.

(** X6. In a simulator started by the constructor, every record of the
    timeline carries the id of one of the jobs it was given (backlog or
    preloaded queue): the job [Job(-1, 0, 0, 0)] that [getNextJob] returns
    on an empty queue is never recorded. *)
Theorem timeline_ids_are_job_ids sched l n r :
  In r (ganttChart (run_for n (new_Simulator sched l))) ->
  In (fst r) (map jobId (l ++ queue sched)).
Proof.
  set (ids := map jobId (l ++ queue sched)).
  set (P := fun job => In (jobId job) ids).
  assert (HP : forall s,
            Forall P (live s) ->
            Forall P (live (tick s))
            /\ forall job, selected_at s = Some job -> P job).
  { intros s. apply live_forall_tick; unfold P.
    - intros now s' job H.
      destruct (aging_of_cases now s' job) as [->|[p ->]]; exact H.
    - intros now job H. rewrite jobId_execute. exact H.
    - intros t job H. exact H. }
  assert (H : Forall P (live (run_for n (new_Simulator sched l)))
              /\ Forall (fun r => In (fst r) ids)
                        (ganttChart (run_for n (new_Simulator sched l)))).
  { apply (run_for_preserves
             (fun s => Forall P (live s)
                       /\ Forall (fun r => In (fst r) ids) (ganttChart s))).
    - intros s [Hl Hc]. destruct (HP s Hl) as [Hl' Hsel].
      split; [exact Hl'|]. rewrite ganttChart_tick.
      destruct (selected_at s) as [job|]; [|exact Hc].
      apply Forall_app. split; [exact Hc|].
      constructor; [apply (Hsel job eq_refl)|constructor].
    - split; [|constructor]. unfold live, new_Simulator; simpl.
      apply Forall_forall. intros j Hj. unfold P, ids.
      apply in_map, Hj. }
  destruct H as [_ Hc]. rewrite Forall_forall in Hc. apply Hc.
Qed.

(** X7. Priorities never become negative, whatever the scheduler and
    its aging parameters: if the jobs given to a simulator have
    non-negative priority, so has every job it holds after any number of
    iterations. *)
Theorem priority_never_negative sched l n :
  Forall (fun job => 0 <= priority job) (l ++ queue sched) ->
  Forall (fun job => 0 <= priority job)
         (live (run_for n (new_Simulator sched l))).
Proof.
  intros H.
  apply (run_for_preserves
           (fun s => Forall (fun job => 0 <= priority job) (live s))).
  - intros s Hs. apply live_forall_tick; try exact Hs.
    + intros now s' job Hj. unfold aging_of.
      destruct (impl s'); try exact Hj.
      rewrite age_unfold. destruct (_ <? _); simpl; lia.
    + intros now job Hj. unfold execute.
      destruct (startTime job =? -1); exact Hj.
    + intros t job Hj. exact Hj.
  - exact H.
Qed.

(** *** The scheduler's own log *)

Lemma scheduledJobs_schedule now s :
  scheduledJobs (schedule now s) = scheduledJobs s.
Proof. unfold schedule. destruct (impl s); reflexivity. Qed.

Lemma scheduledJobs_tick sim :
  scheduledJobs (scheduler (tick sim)) =
  match selected_at sim with
  | Some job => scheduledJobs (scheduler sim) ++ [job]
  | None => scheduledJobs (scheduler sim)
  end.
Proof.
  assert (H2 : scheduledJobs (scheduled_at sim) = scheduledJobs (scheduler sim)).
  { unfold scheduled_at.
    rewrite scheduledJobs_schedule. apply scheduledJobs_admission. }
  rewrite selected_at_scheduled, tick_unfold. cbv zeta.
  destruct (hasJobs (scheduled_at sim)) eqn:Hhas; [|exact H2].
  apply hasJobs_true in Hhas.
  destruct (getNextJob_queue _ Hhas) as (_ & _ & _ & _ & Hlog).
  destruct (_ =? 0); cbn [scheduler];
    rewrite ?scheduledJobs_addJob, Hlog, H2; reflexivity.
Qed.

(** X8. The log [scheduledJobs] of the scheduler gets one entry per
    executed time unit, not one per job: if the ids of the logged jobs
    agree with the ids of the timeline at some point (as they do at the
    start, both being empty), they agree after any number of
    iterations. *)
Theorem scheduledJobs_match_timeline sim n :
  map jobId (scheduledJobs (scheduler sim)) = map fst (ganttChart sim) ->
  map jobId (scheduledJobs (scheduler (run_for n sim)))
  = map fst (ganttChart (run_for n sim)).
Proof.
  apply (run_for_preserves
           (fun s => map jobId (scheduledJobs (scheduler s))
                     = map fst (ganttChart s))).
  intros s H. rewrite scheduledJobs_tick, ganttChart_tick.
  destruct (selected_at s); [|exact H].
  rewrite !map_app, H. reflexivity.
Qed.

(** *** Remaining time *)

(** X9. On well-formed input, every job still in the backlog or in the
    queue has a remaining time between 1 and its burst time, and every
    finished job has remaining time 0, after any number of iterations. *)
Theorem remainingTime_bounds ui sim n :
  Forall well_formed (jobs ui) ->
  entry ui sim ->
  Forall (fun job => 1 <= remainingTime job <= burstTime job)
         (allJobs (run_for n sim) ++ queue (scheduler (run_for n sim)))
  /\ Forall (fun job => remainingTime job = 0)
            (finishedJobs (run_for n sim)).
Proof.
  intros Hwf Hentry.
  set (B := fun job => 1 <= remainingTime job <= burstTime job).
  assert (HB : Forall B (jobs ui)).
  { eapply Forall_impl; [|exact Hwf].
    intros j (_ & Hb & Hr & _). unfold B. lia. }
  assert (H : invariant B (fun _ => B) (fun job => remainingTime job = 0)
                (run_for n sim)).
  { apply run_for_preserves.
    - apply invariant_tick; unfold B; intros; auto;
        rewrite remainingTime_execute, burstTime_execute in *; lia.
    - eapply entry_invariant; eassumption. }
  destruct H as (_ & H1 & H2 & H3). split; [|exact H3].
  apply Forall_app. auto.
Qed.

(** ** Further properties of the schedulers *)

Lemma queue_addJobs l :
  forall s, queue (addJobs l s) = queue s ++ l
            /\ same_policy s (addJobs l s)
            /\ scheduledJobs (addJobs l s) = scheduledJobs s.
Proof.
  unfold addJobs. induction l as [|job l IH]; intros s; simpl.
  - rewrite app_nil_r. auto using same_policy_refl.
  - destruct (IH (addJob job s)) as (Hq & Hp & Hs).
    rewrite Hq, Hs, queue_addJob, scheduledJobs_addJob, <- app_assoc.
    repeat split. eapply same_policy_trans; [apply same_policy_addJob|exact Hp].
Qed.

Lemma drain_fifo n :
  forall s,
    is_fifo s -> n = length (queue s) ->
    fst (drain n s) = queue s
    /\ queue (snd (drain n s)) = []
    /\ scheduledJobs (snd (drain n s)) = scheduledJobs s ++ queue s.
Proof.
  induction n as [|n IH]; intros s Hf Hn.
  - destruct (queue s) eqn:E; [|discriminate]. simpl.
    rewrite E, app_nil_r. auto.
  - destruct (getNextJob_fifo s Hf) as (Hj & Hq & Hl).
    pose proof (is_fifo_same_policy _ _ (same_policy_getNextJob s) Hf) as Hf'.
    simpl. destruct (getNextJob s) as [job s1]. simpl in *.
    destruct (queue s) as [|x q]; [discriminate|]. simpl in *.
    injection Hn as Hn. rewrite <- Hq in Hn.
    destruct (IH s1 Hf' Hn) as (H1 & H2 & H3).
    destruct (drain n s1) as [rest s2]. simpl in *.
    rewrite H1, H2, H3, Hq, Hj, Hl, <- app_assoc. auto.
Qed.

(** X10. FCFS and Round Robin hand jobs out in the order they were
    added: after adding the jobs of a list to such a scheduler, as many
    calls of [getNextJob] as it holds jobs return the jobs already queued
    followed by the added ones, in order, leave the queue empty and log
    them in [scheduledJobs]. *)
Theorem fifo_order l s :
  is_fifo s ->
  fst (drain (length (queue s ++ l)) (addJobs l s)) = queue s ++ l
  /\ queue (snd (drain (length (queue s ++ l)) (addJobs l s))) = []
  /\ scheduledJobs (snd (drain (length (queue s ++ l)) (addJobs l s)))
     = scheduledJobs s ++ queue s ++ l.
Proof.
  intros Hf. destruct (queue_addJobs l s) as (Hq & Hp & Hs).
  rewrite <- Hq, <- Hs. apply drain_fifo; [|reflexivity].
  eapply is_fifo_same_policy; eassumption.
Qed.

Lemma drain_by_key (key : Job -> Z) (R : Scheduler -> Prop) :
  (forall s, R s -> queue s <> [] ->
     exists before after,
       first_min key (queue s) before (fst (getNextJob s)) after
       /\ queue (snd (getNextJob s)) = before ++ after
       /\ R (snd (getNextJob s))) ->
  forall n s,
    R s -> n = length (queue s) ->
    Permutation (fst (drain n s)) (queue s)
    /\ ascending key (fst (drain n s))
    /\ queue (snd (drain n s)) = [].
Proof.
  intros Hsel. induction n as [|n IH]; intros s HR Hn.
  - destruct (queue s) eqn:E; [|discriminate]. simpl.
    rewrite E. repeat split; constructor.
  - assert (Hne : queue s <> []) by (destruct (queue s); [discriminate|congruence]).
    destruct (Hsel s HR Hne) as (before & after & Hmin & Hq' & HR').
    destruct (first_min_least _ _ _ _ _ Hmin) as [_ Hle].
    destruct Hmin as (Hq & _ & _).
    simpl. destruct (getNextJob s) as [job s1]. simpl in *.
    assert (Hn' : n = length (queue s1)).
    { rewrite Hq' . rewrite Hq, length_app in Hn. simpl in Hn.
      rewrite length_app. lia. }
    destruct (IH s1 HR' Hn') as (Hp & Ha & He).
    destruct (drain n s1) as [rest s2]. simpl in *.
    assert (Hperm : Permutation (job :: rest) (queue s)).
    { rewrite Hq. eapply perm_trans; [apply perm_skip, Hp|].
      rewrite Hq'. apply Permutation_middle. }
    repeat split; [exact Hperm| |exact He].
    constructor; [exact Ha|]. apply Forall_forall. intros x Hx.
    apply Hle. eapply Permutation_in; [exact Hperm|]. right. exact Hx.
Qed.

(** X11. Emptying the SJF scheduler by repeated [getNextJob] returns
    its jobs by non-decreasing remaining time: the jobs returned are a
    rearrangement of the queue, each with a remaining time not larger than
    that of any job returned after it. *)
Theorem SJF_drains_shortest_first s :
  is_SJF s ->
  Permutation (fst (drain (length (queue s)) s)) (queue s)
  /\ ascending remainingTime (fst (drain (length (queue s)) s))
  /\ queue (snd (drain (length (queue s)) s)) = [].
Proof.
  intros Hs. apply (drain_by_key remainingTime is_SJF); auto.
  intros s' Hs' Hne. destruct (getNextJob_SJF s' Hs' Hne) as [Hmin Herase].
  eexists _, _. split; [exact Hmin|]. split; [exact Herase|].
  eapply is_SJF_same_policy; [apply same_policy_getNextJob|exact Hs'].
Qed.

Lemma is_Priority_same_policy th inc s s' :
  same_policy s s' -> is_Priority th inc s -> is_Priority th inc s'.
Proof.
  unfold same_policy, is_Priority. destruct (impl s), (impl s'); try tauto.
  intros [-> ->]. tauto.
Qed.

(** X12. Emptying the priority scheduler by repeated [getNextJob]
    (without [schedule] in between, so without aging) returns its jobs by
    non-decreasing priority value, most urgent first. *)
Theorem Priority_drains_most_urgent_first th inc s :
  is_Priority th inc s ->
  Permutation (fst (drain (length (queue s)) s)) (queue s)
  /\ ascending priority (fst (drain (length (queue s)) s))
  /\ queue (snd (drain (length (queue s)) s)) = [].
Proof.
  intros Hs. apply (drain_by_key priority (is_Priority th inc)); auto.
  intros s' Hs' Hne.
  destruct (getNextJob_Priority th inc s' Hs' Hne) as [Hmin Herase].
  eexists _, _. split; [exact Hmin|]. split; [exact Herase|].
  eapply is_Priority_same_policy; [apply same_policy_getNextJob|exact Hs'].
Qed.

(** X13. On a non-empty queue, every scheduler's [getNextJob] takes
    exactly one job out: the job returned was in the queue, the queue left
    is the old one without it (the other jobs in their order), one
    shorter, and the job is appended to [scheduledJobs]; the class and
    parameters of the scheduler stay. *)
Theorem getNextJob_removes_one s :
  queue s <> [] ->
  In (fst (getNextJob s)) (queue s)
  /\ Permutation (queue s) (fst (getNextJob s) :: queue (snd (getNextJob s)))
  /\ (exists before after,
        queue s = before ++ fst (getNextJob s) :: after
        /\ queue (snd (getNextJob s)) = before ++ after)
  /\ S (length (queue (snd (getNextJob s)))) = length (queue s)
  /\ scheduledJobs (snd (getNextJob s))
     = scheduledJobs s ++ [fst (getNextJob s)]
  /\ same_policy s (snd (getNextJob s)).
Proof.
  intros Hne.
  destruct (getNextJob_queue s Hne) as (before & after & Hq & Hq' & Hl).
  split; [rewrite Hq; apply in_elt|].
  split; [rewrite Hq', Hq; apply Permutation_sym, Permutation_middle|].
  split; [eauto|].
  split; [rewrite Hq', Hq, !length_app; simpl; lia|].
  split; [exact Hl|apply same_policy_getNextJob].
Qed.

(** X14. A job added to a scheduler with an empty queue is the job the
    next [getNextJob] returns, for each of the four classes, and the
    queue is empty again. *)
Theorem addJob_getNextJob s job :
  queue s = [] ->
  fst (getNextJob (addJob job s)) = job
  /\ queue (snd (getNextJob (addJob job s))) = []
  /\ scheduledJobs (snd (getNextJob (addJob job s)))
     = scheduledJobs s ++ [job].
Proof.
  unfold queue, getNextJob, addJob.
  destruct (impl s) as [q|q|q tq|q th inc]; intros ->; simpl; auto.
Qed.

(** X15. Aging accumulates and stops at 0: with a non-negative
    increment, a job of non-negative priority that is aged at [k] times,
    each more than the threshold after its arrival, ends with priority
    [max(0, priority - k * increment)]; nothing else in the job changes.
    A job aged only at times not past the threshold is unchanged. *)
Theorem aging_accumulates times th inc job :
  0 <= inc -> 0 <= priority job ->
  (Forall (fun now => th < now - arrivalTime job) times ->
   aged_at times th inc job =
   set_priority
     (Z.max 0 (priority job - Z.of_nat (length times) * inc)) job)
  /\ (Forall (fun now => now - arrivalTime job <= th) times ->
      aged_at times th inc job = job).
Proof.
  intros Hinc. unfold aged_at. revert job.
  induction times as [|now times IH]; intros job Hp.
  - simpl. split; intros _; [|reflexivity].
    rewrite Z.max_r by lia. destruct job; unfold set_priority; simpl.
    f_equal. lia.
  - split; intros Hall; inversion Hall as [|? ? Hnow Hrest]; subst.
    + change (length (now :: times)) with (S (length times)).
      rewrite Nat2Z.inj_succ, Z.mul_succ_l.
      pose proof (Z.mul_nonneg_nonneg (Z.of_nat (length times)) inc
                    ltac:(lia) Hinc) as Hk.
      simpl fold_left. rewrite age_unfold.
      apply Z.ltb_lt in Hnow. rewrite Hnow.
      set (job1 := set_priority (Z.max 0 (priority job - inc)) job).
      destruct (IH job1) as [IH1 _]; [unfold job1; simpl; lia|].
      rewrite IH1 by exact Hrest.
      set (x := Z.of_nat (length times) * inc) in *. clearbody x.
      unfold job1, set_priority; simpl. f_equal. lia.
    + simpl fold_left. rewrite age_unfold.
      assert (Hno : (th <? now - arrivalTime job) = false)
        by (apply Z.ltb_ge; lia).
      rewrite Hno. destruct (IH job Hp) as [_ IH2]. apply IH2, Hrest.
Qed.

(** X16. Under FCFS and Round Robin one iteration of the loop is one
    step of a round robin with a quantum of one unit: the job at the front
    of the queue (the queue followed by the jobs arriving now, in backlog
    order) is executed for one unit and, unless that was its last unit,
    goes to the back of the queue; with nothing in the queue and nothing
    arriving, the iteration is idle. *)
Theorem fifo_tick_is_round_robin sim :
  is_fifo (scheduler sim) ->
  match queue (scheduler sim)
        ++ filter (arrived (currentTime sim)) (allJobs sim) with
  | [] =>
      ganttChart (tick sim) = ganttChart sim
      /\ queue (scheduler (tick sim)) = []
  | job :: rest =>
      ganttChart (tick sim) = ganttChart sim ++ [(jobId job, currentTime sim)]
      /\ queue (scheduler (tick sim)) =
         (if remainingTime job =? 1 then rest
          else rest ++ [execute (currentTime sim) job])
  end.
Proof.
  intros Hf.
  assert (Hf1 : is_fifo (snd (admission (currentTime sim) (allJobs sim)
                                        (scheduler sim))))
    by eauto using is_fifo_same_policy, admission_same_policy.
  assert (Hq2 : queue (scheduled_at sim) =
                queue (scheduler sim)
                ++ filter (arrived (currentTime sim)) (allJobs sim)).
  { unfold scheduled_at. rewrite schedule_fifo by exact Hf1.
    apply admission_queue. }
  assert (Hf2 : is_fifo (scheduled_at sim))
    by (unfold scheduled_at; rewrite schedule_fifo; assumption).
  destruct (getNextJob_fifo _ Hf2) as (Hj & Hq' & _).
  rewrite <- Hq2. rewrite ganttChart_tick, selected_at_scheduled.
  rewrite tick_unfold. cbv zeta. unfold hasJobs.
  destruct (queue (scheduled_at sim)) as [|job rest] eqn:E.
  - simpl. rewrite E. auto.
  - simpl in Hj, Hq'. rewrite Hj, remainingTime_execute.
    split; [reflexivity|].
    destruct (Z.eqb_spec (remainingTime job - 1) 0) as [Hz|Hnz];
      destruct (Z.eqb_spec (remainingTime job) 1); try lia;
      cbn [scheduler]; rewrite ?queue_addJob, Hq'; reflexivity.
Qed.

(** X17. [setJobs] starts the scheduler afresh: whatever it held
    before, it then holds exactly the given jobs (in the given order for
    FCFS and Round Robin, sorted by burst time for SJF and by priority for
    the priority scheduler), with empty logs and unchanged class and
    parameters; an earlier [setJobs] or [addJob] leaves no trace. *)
Theorem setJobs_starts_afresh l s :
  same_policy s (setJobs l s)
  /\ scheduledJobs (setJobs l s) = []
  /\ timelineLog (setJobs l s) = []
  /\ Permutation l (queue (setJobs l s))
  /\ (is_fifo s -> queue (setJobs l s) = l)
  /\ (is_SJF s -> sorted_by burstTime (queue (setJobs l s)))
  /\ (forall th inc,
        is_Priority th inc s -> sorted_by priority (queue (setJobs l s)))
  /\ (forall l', setJobs l (setJobs l' s) = setJobs l s)
  /\ (forall job, setJobs l (addJob job s) = setJobs l s).
Proof.
  pose proof (queue_setJobs l s) as Hperm.
  unfold same_policy, is_fifo, is_SJF, is_Priority, queue, setJobs, addJob
    in *.
  destruct (impl s) as [q|q|q tq|q th inc];
    cbn [impl scheduledJobs timelineLog] in *;
    repeat split; intros; try tauto; try reflexivity; try exact Hperm;
    apply std_sort_sorted.
Qed.

(** X18. A call of [schedule] on the SJF scheduler only reorders the
    queue, leaving it sorted by remaining time, so that on a non-empty
    queue the [getNextJob] that follows returns the job at the front. *)
Theorem SJF_schedule_then_front now s :
  is_SJF s ->
  Permutation (queue s) (queue (schedule now s))
  /\ sorted_by remainingTime (queue (schedule now s))
  /\ scheduledJobs (schedule now s) = scheduledJobs s
  /\ (queue s <> [] ->
      exists after,
        queue (schedule now s) = fst (getNextJob (schedule now s)) :: after
        /\ queue (snd (getNextJob (schedule now s))) = after).
Proof.
  intros Hs.
  assert (Hq : queue (schedule now s)
               = std_sort (less_by remainingTime) (queue s)).
  { unfold is_SJF, queue, schedule in *. destruct (impl s); tauto. }
  assert (Hs' : is_SJF (schedule now s))
    by (eapply is_SJF_same_policy; [apply same_policy_schedule|exact Hs]).
  assert (Hperm : Permutation (queue s) (queue (schedule now s)))
    by (rewrite Hq; apply std_sort_permutation).
  assert (Hsorted : sorted_by remainingTime (queue (schedule now s)))
    by (rewrite Hq; apply std_sort_sorted).
  split; [exact Hperm|]. split; [exact Hsorted|].
  split; [apply scheduledJobs_schedule|]. intros Hne.
  assert (Hne' : queue (schedule now s) <> []).
  { intros Hnil. rewrite Hnil in Hperm.
    apply Permutation_sym, Permutation_nil in Hperm. auto. }
  destruct (getNextJob_SJF _ Hs' Hne') as [Hmin Herase].
  pose proof (sorted_first_min_head _ _ _ _ _ Hsorted Hmin) as Hhd.
  unfold erase in Herase. rewrite Hhd in *. simpl in Herase.
  destruct Hmin as (Heq & _). eauto.
Qed.

(** ** Properties of the session state *)

Lemma in_firstn {A : Type} i (l : list A) x : In x (firstn i l) -> In x l.
Proof.
  intros H. rewrite <- (firstn_skipn i l). apply in_or_app. auto.
Qed.

Lemma in_skipn {A : Type} i (l : list A) x : In x (skipn i l) -> In x l.
Proof.
  intros H. rewrite <- (firstn_skipn i l). apply in_or_app. auto.
Qed.

Lemma StronglySorted_erase {A : Type} (R : A -> A -> Prop) (l : list A) :
  StronglySorted R l ->
  forall i, StronglySorted R (firstn i l ++ skipn (S i) l).
Proof.
  induction 1 as [|x l Hl IH Hx]; intros i.
  - destruct i; simpl; constructor.
  - destruct i as [|i]; simpl; [exact Hl|].
    constructor; [apply IH|].
    rewrite Forall_forall in *. intros y Hy. apply Hx.
    apply in_app_or in Hy. destruct Hy as [Hy|Hy].
    + apply (in_firstn i). exact Hy.
    + apply (in_skipn (S i)). exact Hy.
Qed.

Lemma Forall_erase (P : Job -> Prop) i l : Forall P l -> Forall P (erase i l).
Proof.
  intros H. unfold erase. rewrite Forall_forall in *. intros y Hy.
  apply H. apply in_app_or in Hy. destruct Hy as [Hy|Hy].
  - apply (in_firstn i). exact Hy.
  - apply (in_skipn (S i)). exact Hy.
Qed.

Lemma map_erase (f : Job -> Z) i l :
  map f (erase i l) = firstn i (map f l) ++ skipn (S i) (map f l).
Proof. unfold erase. rewrite map_app, firstn_map, skipn_map. reflexivity. Qed.

Lemma sorted_last_greatest (l : list Job) d :
  StronglySorted Z.lt (map jobId l) ->
  Forall (fun job => jobId job <= jobId (last l d)) l.
Proof.
  induction l as [|x l IH]; intros Hs; [constructor|].
  simpl map in Hs. inversion Hs as [|? ? Hl Hx]; subst.
  specialize (IH Hl). destruct l as [|y l'].
  - simpl. repeat constructor. lia.
  - change (last (x :: y :: l') d) with (last (y :: l') d).
    constructor; [|exact IH].
    inversion Hx as [|? ? Hxy _]; subst.
    inversion IH as [|? ? Hy _]; subst. lia.
Qed.

Lemma StronglySorted_lt_NoDup (l : list Z) : StronglySorted Z.lt l -> NoDup l.
Proof.
  induction 1 as [|x l Hl IH Hx]; constructor; [|exact IH].
  intros Hin. rewrite Forall_forall in Hx. specialize (Hx x Hin). lia.
Qed.

Lemma ids_increasing_addJob nm arrival burst prio ui :
  StronglySorted Z.lt (map jobId (jobs ui)) ->
  StronglySorted Z.lt
    (map jobId (jobs (UIController_addJob nm arrival burst prio ui))).
Proof.
  intros Hs. unfold UIController_addJob. cbn [jobs].
  rewrite map_app. apply StronglySorted_snoc; [exact Hs|].
  apply Forall_map. cbn [map jobId set_jobId].
  pose proof (sorted_last_greatest (jobs ui) noJob Hs) as Hlast.
  destruct (jobs ui) as [|x l]; [constructor|].
  eapply Forall_impl; [|exact Hlast]. cbv beta. intros; lia.
Qed.

Lemma ids_increasing_removeJob idx ui :
  StronglySorted Z.lt (map jobId (jobs ui)) ->
  StronglySorted Z.lt (map jobId (jobs (UIController_removeJob idx ui))).
Proof.
  intros Hs. unfold UIController_removeJob.
  destruct (jobs ui) as [|x l] eqn:E; [rewrite E; exact Hs|].
  cbn [jobs]. rewrite map_erase. apply StronglySorted_erase, Hs.
Qed.

(** X19. Jobs entered through the menu have distinct ids: if the ids of
    the job list are strictly increasing (as in the empty list of a new
    session), they are still strictly increasing after [addJob], whose new
    job gets the id after the last one (1 in an empty list) and goes to
    the end, and after [removeJob], which with an index between 1 and the
    number of jobs takes exactly one job out; hence no id occurs twice. *)
Theorem menu_ids_stay_distinct ui :
  StronglySorted Z.lt (map jobId (jobs ui)) ->
  NoDup (map jobId (jobs ui))
  /\ (forall nm arrival burst prio,
        StronglySorted Z.lt
          (map jobId (jobs (UIController_addJob nm arrival burst prio ui)))
        /\ exists job,
            jobs (UIController_addJob nm arrival burst prio ui)
            = jobs ui ++ [job]
            /\ name job = nm
            /\ jobId job = match jobs ui with
                           | [] => 1
                           | _ :: _ => jobId (last (jobs ui) noJob) + 1
                           end)
  /\ (forall idx,
        StronglySorted Z.lt (map jobId (jobs (UIController_removeJob idx ui)))
        /\ (1 <= idx <= Z.of_nat (length (jobs ui)) ->
            S (length (jobs (UIController_removeJob idx ui)))
            = length (jobs ui))).
Proof.
  intros Hs. split; [apply StronglySorted_lt_NoDup, Hs|]. split.
  - intros nm arrival burst prio.
    split; [apply ids_increasing_addJob, Hs|].
    eexists. split; [reflexivity|]. split; reflexivity.
  - intros idx. split; [apply ids_increasing_removeJob, Hs|].
    intros Hidx. unfold UIController_removeJob.
    destruct (jobs ui) as [|x l] eqn:E; [simpl in Hidx; lia|].
    cbn [jobs]. unfold erase.
    rewrite length_app, length_firstn, length_skipn.
    assert (Z.to_nat (idx - 1) < length (x :: l))%nat by lia. lia.
Qed.

Lemma session_invariant_perform act ui :
  session_invariant ui -> valid_input ui act ->
  session_invariant (perform act ui).
Proof.
  intros (Hwf & Hp & Hs & Ha & Hq & Ht & Hi) Hv.
  destruct act as [nm arrival burst prio|idx|choice|choice value];
    cbn [perform valid_input] in *.
  - unfold session_invariant.
    split; [|split; [|split; [apply ids_increasing_addJob, Hs|]]];
      cbn [UIController_addJob jobs currentAlgorithm rrQuantum
           agingThreshold agingIncrement]; [| |tauto].
    + apply Forall_app. split; [exact Hwf|].
      constructor; [|constructor].
      unfold well_formed, constructed; simpl. repeat split; lia.
    + apply Forall_app. split; [exact Hp|].
      constructor; [simpl; lia|constructor].
  - unfold session_invariant.
    split; [|split; [|split; [apply ids_increasing_removeJob, Hs|]]];
      unfold UIController_removeJob;
      (destruct (jobs ui) as [|x l] eqn:E;
       [rewrite ?E; auto|
        cbn [jobs currentAlgorithm rrQuantum agingThreshold agingIncrement]]).
    + apply Forall_erase, Hwf.
    + apply Forall_erase, Hp.
    + tauto.
  - unfold showAlgorithmMenu.
    destruct (Z.leb_spec 1 choice), (Z.leb_spec choice 4); simpl;
      unfold session_invariant; simpl; repeat split; try assumption; lia.
  - unfold showCustomizationMenu. destruct Hv as [Hc Hval].
    destruct (Z.eq_dec choice 1) as [->|]; [|
    destruct (Z.eq_dec choice 2) as [->|]; [|
    destruct (Z.eq_dec choice 3) as [->|]; [|
    assert (choice = 4) as -> by lia]]];
      unfold session_invariant; simpl; repeat split; try assumption; lia.
Qed.

Lemma session_invariant_session acts :
  forall ui,
    session_invariant ui -> valid_session acts ui ->
    session_invariant (session acts ui).
Proof.
  induction acts as [|act rest IH]; intros ui Hinv Hv; simpl; [exact Hinv|].
  destruct Hv as [Hv Hrest].
  apply IH; [apply session_invariant_perform; assumption|exact Hrest].
Qed.

(** X20. A session that only uses the menus to add and remove jobs, to
    choose the algorithm and to set the parameters, each value within the
    bounds its prompt enforces, keeps the session state sound: every job
    is well formed with a priority between 0 and 100, ids are strictly
    increasing, the algorithm is one of the four and the quantum and the
    aging parameters are between 1 and 100.  The simulation that
    [createSimulator] then builds runs to completion.  A newly started
    session is in such a state. *)
Theorem menu_session_sound acts ui :
  session_invariant ui ->
  valid_session acts ui ->
  session_invariant (session acts ui)
  /\ (exists n sim',
        run n (createSimulator (session acts ui)) = Some sim'
        /\ allJobs sim' = []
        /\ hasJobs (scheduler sim') = false)
  /\ session_invariant new_UIController.
Proof.
  intros Hinv Hv.
  pose proof (session_invariant_session acts ui Hinv Hv) as Hinv'.
  split; [exact Hinv'|]. split.
  - destruct Hinv' as (Hwf & _).
    assert (Hw : Forall has_work (jobs (session acts ui))).
    { eapply Forall_impl; [|exact Hwf].
      intros j (_ & Hb & Hr & _). unfold has_work. lia. }
    destruct (run_terminates_from (createSimulator (session acts ui)))
      as (n & sim' & Hrun & _ & Hb & Hq).
    + apply createSimulator_invariant; exact Hw.
    + eauto.
  - unfold session_invariant, new_UIController; simpl.
    repeat split; try lia; constructor.
Qed.

(** ** Saving and loading *)

Lemma extract_digits_string_of_uint d rest :
  stops rest ->
  extract_digits (NilEmpty.string_of_uint d ++ rest) = (d, rest).
Proof.
  intros Hstop. induction d; simpl; rewrite ?IHd; simpl;
    [exact Hstop|reflexivity..].
Qed.

Lemma stops_nil : stops EmptyString.
Proof. reflexivity. Qed.

Lemma stops_comma rest : stops (String "," rest).
Proof. unfold stops. simpl. destruct (extract_digits rest). reflexivity. Qed.

Lemma stops_newline rest : stops (String newline rest).
Proof. unfold stops. simpl. destruct (extract_digits rest). reflexivity. Qed.

(** The first character of a printed number is a digit. *)
Lemma string_of_uint_first d :
  d <> Decimal.Nil ->
  exists c s',
    NilEmpty.string_of_uint d = String c s'
    /\ isspace c = false
    /\ Ascii.eqb c "-" = false
    /\ Ascii.eqb c "+" = false.
Proof.
  destruct d; [congruence|..]; intros _; simpl; eexists _, _;
    repeat split.
Qed.

Lemma extract_int_unsigned d rest :
  d <> Decimal.Nil -> stops rest ->
  in_int_range (Z.of_uint d) ->
  extract_int (NilEmpty.string_of_uint d ++ rest) = Some (Z.of_uint d, rest).
Proof.
  intros Hd Hstop [Hlo Hhi].
  pose proof (extract_digits_string_of_uint d rest Hstop) as Hdig.
  destruct (string_of_uint_first d Hd) as (c & s' & Heq & Hsp & Hm & Hp).
  unfold extract_int. rewrite Heq in *. simpl append in *.
  simpl skipws. rewrite Hsp, Hm, Hp, Hdig.
  destruct d; [congruence|..];
    (apply Z.leb_le in Hlo; apply Z.leb_le in Hhi;
     cbv zeta; rewrite Hlo, Hhi; reflexivity).
Qed.

Lemma extract_int_negative d rest :
  d <> Decimal.Nil -> stops rest ->
  in_int_range (- Z.of_uint d) ->
  extract_int (String "-" (NilEmpty.string_of_uint d ++ rest))
  = Some (- Z.of_uint d, rest).
Proof.
  intros Hd Hstop [Hlo Hhi].
  pose proof (extract_digits_string_of_uint d rest Hstop) as Hdig.
  unfold extract_int. simpl skipws.
  change (isspace "-") with false. cbv iota.
  change (Ascii.eqb "-" "-") with true. cbv iota. rewrite Hdig.
  destruct d; [congruence|..];
    (apply Z.leb_le in Hlo; apply Z.leb_le in Hhi;
     cbv zeta; rewrite Hlo, Hhi; reflexivity).
Qed.

(** Reading back a printed number. *)
Lemma extract_int_to_string z rest :
  in_int_range z -> stops rest ->
  extract_int (to_string z ++ rest) = Some (z, rest).
Proof.
  intros Hz Hstop. pose proof (DecimalZ.of_to z) as Hof.
  destruct z as [|p|p].
  - apply (extract_int_unsigned (Decimal.D0 Decimal.Nil) rest);
      [discriminate|exact Hstop|exact Hz].
  - pose proof (DecimalPos.Unsigned.to_uint_nonnil p) as Hnn.
    assert (Hd : Z.of_uint (Pos.to_uint p) = Z.pos p) by exact Hof.
    assert (Hs : NilZero.string_of_uint (Pos.to_uint p)
                 = NilEmpty.string_of_uint (Pos.to_uint p))
      by (destruct (Pos.to_uint p); [congruence|reflexivity..]).
    change (to_string (Z.pos p))
      with (NilZero.string_of_uint (Pos.to_uint p)).
    rewrite Hs, <- Hd.
    apply extract_int_unsigned; [exact Hnn|exact Hstop|].
    rewrite Hd. exact Hz.
  - pose proof (DecimalPos.Unsigned.to_uint_nonnil p) as Hnn.
    assert (Hd : - Z.of_uint (Pos.to_uint p) = Z.neg p) by exact Hof.
    assert (Hs : NilZero.string_of_uint (Pos.to_uint p)
                 = NilEmpty.string_of_uint (Pos.to_uint p))
      by (destruct (Pos.to_uint p); [congruence|reflexivity..]).
    change (to_string (Z.neg p) ++ rest)%string
      with (String "-" (NilZero.string_of_uint (Pos.to_uint p) ++ rest)).
    rewrite Hs, <- Hd.
    apply extract_int_negative; [exact Hnn|exact Hstop|].
    rewrite Hd. exact Hz.
Qed.

Lemma extract_char_comma rest :
  extract_char (String "," rest) = Some (","%char, rest).
Proof. reflexivity. Qed.

Lemma append_nil_right (s1 : string) : (s1 ++ "")%string = s1.
Proof. induction s1 as [|c s1 IH]; simpl; [|rewrite IH]; reflexivity. Qed.

Lemma parse_id_line_csv_fields job :
  storable job -> parse_id_line (csv_fields job) = Some (reloaded job).
Proof.
  intros (H1 & H2 & H3 & H4). unfold parse_id_line, csv_fields.
  change ("," ++ ?x)%string with (String "," x).
  rewrite (extract_int_to_string _ _ H1 (stops_comma _)).
  rewrite extract_char_comma.
  change ("," ++ ?x)%string with (String "," x).
  rewrite (extract_int_to_string _ _ H2 (stops_comma _)).
  rewrite extract_char_comma.
  change ("," ++ ?x)%string with (String "," x).
  rewrite (extract_int_to_string _ _ H3 (stops_comma _)).
  rewrite extract_char_comma.
  rewrite <- (append_nil_right (to_string (priority job))).
  rewrite (extract_int_to_string _ _ H4 stops_nil).
  reflexivity.
Qed.

Lemma one_line_append s1 s2 :
  one_line (s1 ++ s2) = one_line s1 && one_line s2.
Proof.
  induction s1 as [|c s1 IH]; simpl; [reflexivity|].
  rewrite IH, andb_assoc. reflexivity.
Qed.

Lemma one_line_string_of_uint d : one_line (NilEmpty.string_of_uint d) = true.
Proof. induction d; simpl; auto. Qed.

Lemma one_line_to_string z : one_line (to_string z) = true.
Proof.
  unfold to_string. destruct (Z.to_int z) as [d|d]; simpl;
    unfold NilZero.string_of_uint; destruct d;
    try reflexivity; apply (one_line_string_of_uint (_ d)).
Qed.

Lemma one_line_csv_fields job : one_line (csv_fields job) = true.
Proof.
  unfold csv_fields. rewrite !one_line_append, !one_line_to_string.
  reflexivity.
Qed.

Lemma split_lines_line line rest :
  one_line line = true ->
  split_lines (line ++ String newline rest) = line :: split_lines rest.
Proof.
  induction line as [|c line IH]; intros H.
  - reflexivity.
  - simpl in H. apply andb_true_iff in H. destruct H as [Hc Hl].
    apply negb_true_iff in Hc.
    change (split_lines (String c line ++ String newline rest))
      with (if Ascii.eqb c newline
            then EmptyString :: split_lines (line ++ String newline rest)
            else match split_lines (line ++ String newline rest) with
                 | [] => [String c EmptyString]
                 | l :: ls => String c l :: ls
                 end).
    rewrite Hc, (IH Hl). reflexivity.
Qed.

Lemma split_lines_saved l :
  split_lines (fold_right
                 (fun job text => csv_fields job ++ String newline text)
                 EmptyString l)%string
  = map csv_fields l.
Proof.
  induction l as [|job l IH]; simpl; [reflexivity|].
  rewrite split_lines_line by apply one_line_csv_fields.
  rewrite IH. reflexivity.
Qed.

Lemma load_lines_saved l :
  Forall storable l ->
  forall id, load_lines (map csv_fields l) id = map reloaded l.
Proof.
  induction 1 as [|job l Hj Hl IH]; intros id; simpl; [reflexivity|].
  rewrite (parse_id_line_csv_fields job Hj), IH. reflexivity.
Qed.

Lemma csv_fields_reloaded job : csv_fields (reloaded job) = csv_fields job.
Proof. reflexivity. Qed.

(** [split_lines] is the loop of [std::getline]: on a text that is not
    empty, the first line is what [getline] extracts and the other lines
    are those of the text [getline] leaves. *)
Lemma split_lines_getline c s :
  split_lines (String c s)
  = fst (getline newline (String c s))
    :: split_lines (snd (getline newline (String c s))).
Proof.
  revert c. induction s as [|c' s IH]; intros c.
  - simpl. destruct (Ascii.eqb c newline); reflexivity.
  - specialize (IH c').
    change (split_lines (String c (String c' s)))
      with (if Ascii.eqb c newline
            then EmptyString :: split_lines (String c' s)
            else match split_lines (String c' s) with
                 | [] => [String c EmptyString]
                 | l :: ls => String c l :: ls
                 end).
    change (getline newline (String c (String c' s)))
      with (if Ascii.eqb c newline then (EmptyString, String c' s)
            else let (line, rest) := getline newline (String c' s) in
                 (String c line, rest)).
    destruct (Ascii.eqb c newline); [reflexivity|].
    rewrite IH. destruct (getline newline (String c' s)). reflexivity.
Qed.

(** X24. Saving and loading round trip: the file [saveJobs] writes for
    jobs whose id, arrival time, burst time and priority are [int] values
    is read back by [loadJobsFromCSV] as the same jobs in the same order,
    each as [Job(id, arrival, burst, priority)] makes it (named "Job" and
    the id, nothing executed yet); saving the loaded jobs writes the same
    file again. *)
Theorem save_load_round_trip l :
  Forall storable l ->
  loadJobsFromCSV (Some (saveJobs l)) = map reloaded l
  /\ saveJobs (loadJobsFromCSV (Some (saveJobs l))) = saveJobs l
  /\ Forall constructed (loadJobsFromCSV (Some (saveJobs l))).
Proof.
  intros Hl.
  assert (Hload : loadJobsFromCSV (Some (saveJobs l)) = map reloaded l).
  { unfold loadJobsFromCSV, saveJobs.
    rewrite split_lines_line by reflexivity.
    simpl tl. rewrite split_lines_saved. apply load_lines_saved, Hl. }
  split; [exact Hload|]. rewrite Hload. split.
  - unfold saveJobs. f_equal. f_equal. clear.
    induction l as [|job l IH]; simpl; [reflexivity|].
    rewrite IH, csv_fields_reloaded. reflexivity.
  - apply Forall_map. apply Forall_forall. intros job _.
    repeat split.
Qed.

Lemma parse_id_line_constructed line job :
  parse_id_line line = Some job -> constructed job.
Proof.
  unfold parse_id_line.
  repeat (match goal with
          | |- context [match ?x with Some _ => _ | None => _ end] =>
              destruct x as [[? ?]|]; [|discriminate]
          end).
  intros [= <-]. repeat split.
Qed.

Lemma parse_name_line_constructed line job :
  parse_name_line line = Some job -> constructed job.
Proof.
  unfold parse_name_line. destruct line as [|c line]; [discriminate|].
  destruct (getline "," (String c line)) as [nm s1].
  repeat (match goal with
          | |- context [match ?x with Some _ => _ | None => _ end] =>
              destruct x as [[? ?]|]; [|discriminate]
          end).
  intros [= <-]. repeat split.
Qed.

Lemma load_lines_constructed lines :
  forall id,
    Forall constructed (load_lines lines id)
    /\ (length (load_lines lines id) <= length lines)%nat.
Proof.
  induction lines as [|line lines IH]; intros id; simpl;
    [split; [constructor|lia]|].
  destruct (parse_id_line line) as [job|] eqn:E1.
  - destruct (IH id) as [H1 H2]. split; [|simpl; lia].
    constructor; [eapply parse_id_line_constructed; eassumption|exact H1].
  - destruct (parse_name_line line) as [job|] eqn:E2.
    + destruct (IH (id + 1)) as [H1 H2]. split; [|simpl; lia].
      constructor; [|exact H1].
      apply parse_name_line_constructed in E2.
      destruct job; exact E2.
    + destruct (IH id) as [H1 H2]. split; [exact H1|lia].
Qed.

(** X25. Whatever the file holds, every job [loadJobsFromCSV] returns
    is as its constructor leaves it: remaining time equal to the burst
    time, start and completion time unset, metrics 0.  There is at most
    one job per line after the header; a file that cannot be opened, an
    empty file and a file of one line give no job. *)
Theorem loaded_jobs_are_fresh file :
  Forall constructed (loadJobsFromCSV file)
  /\ (forall text,
        file = Some text ->
        (length (loadJobsFromCSV file)
         <= length (split_lines text) - 1)%nat)
  /\ loadJobsFromCSV None = []
  /\ loadJobsFromCSV (Some EmptyString) = []
  /\ (forall header,
        one_line header = true ->
        loadJobsFromCSV (Some header) = []
        /\ loadJobsFromCSV (Some (header ++ String newline "")%string) = []).
Proof.
  split; [|split; [|split; [reflexivity|split; [reflexivity|]]]].
  - destruct file as [text|]; [|constructor].
    apply load_lines_constructed.
  - intros text ->. unfold loadJobsFromCSV.
    destruct (load_lines_constructed (tl (split_lines text)) 1) as [_ H].
    destruct (split_lines text); simpl in *; lia.
  - intros header Hh. split.
    + unfold loadJobsFromCSV.
      rewrite <- (append_nil_right header).
      destruct header as [|c header]; [reflexivity|].
      assert (H : exists line, split_lines (String c header ++ "")%string
                               = [line]).
      { clear - Hh. revert c Hh.
        induction header as [|c' header IH]; intros c Hh.
        - simpl in *. apply andb_true_iff in Hh. destruct Hh as [Hc _].
          apply negb_true_iff in Hc. rewrite Hc. eauto.
        - simpl in Hh. apply andb_true_iff in Hh. destruct Hh as [Hc Hh].
          apply negb_true_iff in Hc.
          destruct (IH c' Hh) as (line & Hl).
          change (split_lines (String c (String c' header) ++ "")%string)
            with (if Ascii.eqb c newline
                  then EmptyString
                       :: split_lines (String c' header ++ "")%string
                  else match split_lines (String c' header ++ "")%string with
                       | [] => [String c EmptyString]
                       | l :: ls => String c l :: ls
                       end).
          rewrite Hc, Hl. eauto. }
      destruct H as (line & ->). reflexivity.
    + unfold loadJobsFromCSV. rewrite split_lines_line by exact Hh.
      reflexivity.
Qed.

End Engine.

(** ** An implementation of [std::sort] *)

Lemma insert_sorted_permutation comp x l :
  Permutation (x :: l) (insert_sorted comp x l).
Proof.
  induction l as [|y l IH]; simpl; [apply Permutation_refl|].
  destruct (comp x y); [apply Permutation_refl|].
  eapply perm_trans; [apply perm_swap|]. apply perm_skip, IH.
Qed.

Lemma insertion_sort_permutation (key : Job -> Z) (l : list Job) :
  Permutation l (insertion_sort (less_by key) l).
Proof.
  induction l as [|x l IH]; simpl; [constructor|].
  eapply perm_trans; [apply perm_skip, IH|apply insert_sorted_permutation].
Qed.

Lemma insert_sorted_sorted key x l :
  sorted_by key l -> sorted_by key (insert_sorted (less_by key) x l).
Proof.
  unfold sorted_by. induction 1 as [|y l Hl IH Hy]; simpl.
  - repeat constructor.
  - destruct (less_by key x y) eqn:E.
    + constructor; [constructor; assumption|].
      unfold less_by in *. apply Z.ltb_lt in E.
      constructor; [apply Z.ltb_ge; lia|].
      eapply Forall_impl; [|exact Hy]. simpl. intros b Hb.
      apply Z.ltb_ge in Hb. apply Z.ltb_ge. lia.
    + constructor; [exact IH|].
      eapply Permutation_Forall; [apply insert_sorted_permutation|].
      constructor; assumption.
Qed.

Lemma insertion_sort_sorted (key : Job -> Z) (l : list Job) :
  sorted_by key (insertion_sort (less_by key) l).
Proof.
  induction l as [|x l IH]; simpl; [constructor|].
  apply insert_sorted_sorted, IH.
Qed.

(** ** The theorems on concrete inputs *)

(** The example of the specification under SJF, on a scheduler that
    starts empty: job 2 preempts job 1 at time 1 and finishes first. *)
Example SJF_two_jobs :
  option_map
    (fun sim => (ganttChart sim, map jobId (finishedJobs sim)))
    (run insertion_sort 6 (new_Simulator new_SJFScheduler two_jobs))
  = Some ([(1, 0); (2, 1); (2, 2); (1, 3); (1, 4); (1, 5)], [2; 1]).
Proof. reflexivity. Qed.

(** The same jobs under FCFS alternate from time 1 on. *)
Example FCFS_two_jobs :
  option_map ganttChart
    (run insertion_sort 6 (new_Simulator new_FCFSScheduler two_jobs))
  = Some [(1, 0); (1, 1); (2, 2); (1, 3); (2, 4); (1, 5)].
Proof. reflexivity. Qed.

(** C10 on a newly constructed SJF scheduler. *)
Lemma getNextJob_empty_witness :
  queue new_SJFScheduler = []
  /\ fst (getNextJob new_SJFScheduler) = Job_of_id (-1) 0 0 0
  /\ jobId (fst (getNextJob new_SJFScheduler)) = -1
  /\ burstTime (fst (getNextJob new_SJFScheduler)) = 0
  /\ remainingTime (fst (getNextJob new_SJFScheduler)) = 0
  /\ snd (getNextJob new_SJFScheduler) = new_SJFScheduler
  /\ queue (snd (getNextJob new_SJFScheduler)) = []
  /\ scheduledJobs (snd (getNextJob new_SJFScheduler))
     = scheduledJobs new_SJFScheduler.
Proof.
  split; [reflexivity|].
  apply (getNextJob_empty new_SJFScheduler). reflexivity.
Defined.

(** C6 on the two jobs of the example, at time 1: job 2, with two units
    left against three, is selected. *)
Lemma SJF_selects_shortest_witness :
  is_SJF (scheduler (new_Simulator new_SJFScheduler two_jobs))
  /\ selected_at insertion_sort
       (run_for insertion_sort 1 (new_Simulator new_SJFScheduler two_jobs))
     = Some (Job_of_id 2 1 2 0)
  /\ forall other,
       In other
          (ready_at insertion_sort
             (run_for insertion_sort 1
                (new_Simulator new_SJFScheduler two_jobs))) ->
       remainingTime (Job_of_id 2 1 2 0) <= remainingTime other.
Proof.
  split; [exact I|]. split; [reflexivity|].
  destruct (SJF_selects_shortest insertion_sort
              (new_Simulator new_SJFScheduler two_jobs) 1 (Job_of_id 2 1 2 0))
    as (_ & _ & Hle & _); [exact I|reflexivity|exact Hle].
Defined.

(** C7 at time 10: job 1 is aged from priority 4 to 3, job 2 keeps 2
    and is returned by [getNextJob]. *)
Lemma Priority_aging_and_selection_witness :
  is_Priority 5 1 aging_example
  /\ queue aging_example <> []
  /\ 0 <= priority (age 10 5 1 (Job_of_id 1 0 3 4)) <= 4
  /\ map priority (queue (schedule insertion_sort 10 aging_example)) = [2; 3]
  /\ forall other,
       In other (queue (schedule insertion_sort 10 aging_example)) ->
       priority (fst (getNextJob (schedule insertion_sort 10 aging_example)))
       <= priority other.
Proof.
  destruct (Priority_aging_and_selection insertion_sort
              insertion_sort_permutation insertion_sort_sorted 5 1 10
              aging_example)
    as (_ & _ & _ & Hbounds & Hnext); [split; reflexivity|].
  split; [split; reflexivity|]. split; [discriminate|].
  split; [apply (Hbounds (Job_of_id 1 0 3 4)); simpl; lia|].
  split; [reflexivity|].
  destruct Hnext as (after & _ & _ & _ & Hle); [discriminate|exact Hle].
Defined.

(** C8 on the two jobs of the example under SJF. *)
Lemma run_terminates_witness :
  Forall well_formed (jobs ui_two_jobs_SJF)
  /\ entry insertion_sort ui_two_jobs_SJF
       (createSimulator insertion_sort ui_two_jobs_SJF)
  /\ exists n sim',
       run insertion_sort n (createSimulator insertion_sort ui_two_jobs_SJF)
       = Some sim'
       /\ (forall k, (k < n)%nat ->
             run insertion_sort k
               (createSimulator insertion_sort ui_two_jobs_SJF) = None)
       /\ allJobs sim' = []
       /\ hasJobs (scheduler sim') = false.
Proof.
  assert (Hwf : Forall well_formed (jobs ui_two_jobs_SJF)).
  { repeat constructor; simpl; lia. }
  assert (Hentry : entry insertion_sort ui_two_jobs_SJF
                     (createSimulator insertion_sort ui_two_jobs_SJF)).
  { left. reflexivity. }
  split; [exact Hwf|]. split; [exact Hentry|].
  apply (run_terminates insertion_sort insertion_sort_permutation
           ui_two_jobs_SJF (createSimulator insertion_sort ui_two_jobs_SJF)
           Hwf Hentry).
Defined.

(** C9 (as amended) on a job without work and a job of one unit, under
    FCFS: after four iterations the two copies of job 2 have finished,
    job 1 has not. *)
Lemma zero_burst_never_finishes_witness :
  Forall constructed (jobs ui_zero_and_one)
  /\ entry insertion_sort ui_zero_and_one
       (createSimulator insertion_sort ui_zero_and_one)
  /\ map jobId
       (finishedJobs (run_for insertion_sort 4
                        (createSimulator insertion_sort ui_zero_and_one)))
     = [2; 2]
  /\ (forall job,
        In job (finishedJobs
                  (run_for insertion_sort 4
                     (createSimulator insertion_sort ui_zero_and_one))) ->
        burstTime job <> 0).
Proof.
  assert (Hc : Forall constructed (jobs ui_zero_and_one)).
  { repeat constructor. }
  assert (Hentry : entry insertion_sort ui_zero_and_one
                     (createSimulator insertion_sort ui_zero_and_one)).
  { left. reflexivity. }
  split; [exact Hc|]. split; [exact Hentry|].
  split; [vm_compute; reflexivity|].
  exact (proj1 (zero_burst_never_finishes insertion_sort
                  insertion_sort_permutation ui_zero_and_one
                  (createSimulator insertion_sort ui_zero_and_one) 4
                  Hc Hentry)).
Defined.

(** C9, the claim as stated fails.  Under FCFS, the job
    (id 1, arrival 0, burst 0) is selected in the first iteration and a
    timeline record is written for it. *)
Lemma zero_burst_job_is_selected :
  In (Job_of_id 1 0 0 0) (jobs ui_zero_burst)
  /\ burstTime (Job_of_id 1 0 0 0) = 0
  /\ selected_at insertion_sort (createSimulator insertion_sort ui_zero_burst)
     = Some (Job_of_id 1 0 0 0)
  /\ ganttChart (tick insertion_sort
                   (createSimulator insertion_sort ui_zero_burst))
     = [(1, 0)].
Proof. split; [left; reflexivity|]. repeat split. Qed.

(** ** The further properties on concrete inputs *)

(** X2 on the example under SJF, which takes six iterations. *)
Lemma clock_counts_iterations_witness :
  run insertion_sort 6 sim_two_jobs_SJF
  = Some (run_for insertion_sort 6 sim_two_jobs_SJF)
  /\ currentTime (run_for insertion_sort 6 sim_two_jobs_SJF)
     = currentTime sim_two_jobs_SJF + Z.of_nat 6.
Proof.
  split; [vm_compute; reflexivity|].
  apply (clock_counts_iterations insertion_sort 6 sim_two_jobs_SJF);
    [vm_compute; reflexivity|].
  intros k Hk. do 6 (destruct k as [|k]; [vm_compute; reflexivity|]). lia.
Defined.

(** X3 on a job that arrives at time 5: the first iteration is idle. *)
Lemma idle_only_when_nothing_ready_witness :
  ganttChart (tick insertion_sort (new_Simulator new_FCFSScheduler
                                     (jobs ui_late_arrival)))
  = ganttChart (new_Simulator new_FCFSScheduler (jobs ui_late_arrival))
  <-> queue (scheduler (new_Simulator new_FCFSScheduler
                          (jobs ui_late_arrival))) = []
      /\ Forall (fun job =>
                   currentTime (new_Simulator new_FCFSScheduler
                                  (jobs ui_late_arrival))
                   < arrivalTime job)
                (allJobs (new_Simulator new_FCFSScheduler
                            (jobs ui_late_arrival))).
Proof.
  apply (idle_only_when_nothing_ready insertion_sort
           insertion_sort_permutation).
Defined.

(** X5 on the example under SJF. *)
Lemma jobs_conserved_witness :
  run insertion_sort 6 sim_two_jobs_SJF
  = Some (run_for insertion_sort 6 sim_two_jobs_SJF)
  /\ Permutation
       (map identity (finishedJobs (run_for insertion_sort 6 sim_two_jobs_SJF)))
       (map identity (live sim_two_jobs_SJF)).
Proof.
  assert (Hrun : run insertion_sort 6 sim_two_jobs_SJF
                 = Some (run_for insertion_sort 6 sim_two_jobs_SJF)).
  { vm_compute; reflexivity. }
  split; [exact Hrun|].
  exact (proj1 (jobs_conserved insertion_sort insertion_sort_permutation 6
                  sim_two_jobs_SJF
                  (run_for insertion_sort 6 sim_two_jobs_SJF) Hrun)).
Defined.

(** X6 on the second record of the example under SJF. *)
Lemma timeline_ids_are_job_ids_witness :
  In (2, 1)
     (ganttChart (run_for insertion_sort 6
                    (new_Simulator new_SJFScheduler two_jobs)))
  /\ In (fst (2, 1)) (map jobId (two_jobs ++ queue new_SJFScheduler)).
Proof.
  assert (H : In (2, 1)
                 (ganttChart (run_for insertion_sort 6
                                (new_Simulator new_SJFScheduler two_jobs)))).
  { vm_compute. right. left. reflexivity. }
  split; [exact H|].
  exact (timeline_ids_are_job_ids insertion_sort insertion_sort_permutation
           new_SJFScheduler two_jobs 6 (2, 1) H).
Defined.

(** X7 on the priority scheduler of the aging example. *)
Lemma priority_never_negative_witness :
  Forall (fun job => 0 <= priority job) (two_jobs ++ queue aging_example)
  /\ Forall (fun job => 0 <= priority job)
            (live (run_for insertion_sort 4
                     (new_Simulator aging_example two_jobs))).
Proof.
  assert (H : Forall (fun job => 0 <= priority job)
                     (two_jobs ++ queue aging_example)).
  { repeat constructor; simpl; lia. }
  split; [exact H|].
  apply (priority_never_negative insertion_sort insertion_sort_permutation
           aging_example two_jobs 4 H).
Defined.

(** X8 on the simulator of [createSimulator] for the example. *)
Lemma scheduledJobs_match_timeline_witness :
  map jobId (scheduledJobs
               (scheduler (createSimulator insertion_sort ui_two_jobs_SJF)))
  = map fst (ganttChart (createSimulator insertion_sort ui_two_jobs_SJF))
  /\ map jobId
       (scheduledJobs
          (scheduler (run_for insertion_sort 3
                        (createSimulator insertion_sort ui_two_jobs_SJF))))
     = map fst
         (ganttChart (run_for insertion_sort 3
                        (createSimulator insertion_sort ui_two_jobs_SJF))).
Proof.
  split; [vm_compute; reflexivity|].
  apply (scheduledJobs_match_timeline insertion_sort
           (createSimulator insertion_sort ui_two_jobs_SJF) 3).
  vm_compute; reflexivity.
Defined.

(** X9 on the example under SJF. *)
Lemma remainingTime_bounds_witness :
  Forall well_formed (jobs ui_two_jobs_SJF)
  /\ entry insertion_sort ui_two_jobs_SJF
       (createSimulator insertion_sort ui_two_jobs_SJF)
  /\ Forall (fun job => remainingTime job = 0)
       (finishedJobs (run_for insertion_sort 9
                        (createSimulator insertion_sort ui_two_jobs_SJF))).
Proof.
  assert (Hwf : Forall well_formed (jobs ui_two_jobs_SJF)).
  { repeat constructor; simpl; lia. }
  assert (Hentry : entry insertion_sort ui_two_jobs_SJF
                     (createSimulator insertion_sort ui_two_jobs_SJF)).
  { left. reflexivity. }
  split; [exact Hwf|]. split; [exact Hentry|].
  apply (remainingTime_bounds insertion_sort insertion_sort_permutation
           ui_two_jobs_SJF (createSimulator insertion_sort ui_two_jobs_SJF)
           9 Hwf Hentry).
Defined.

(** X10 on a new FCFS scheduler. *)
Lemma fifo_order_witness :
  is_fifo new_FCFSScheduler
  /\ fst (drain (length (queue new_FCFSScheduler ++ two_jobs))
                (addJobs two_jobs new_FCFSScheduler))
     = queue new_FCFSScheduler ++ two_jobs.
Proof.
  split; [exact I|]. apply (fifo_order two_jobs new_FCFSScheduler). exact I.
Defined.

(** X11 on the SJF scheduler holding the two jobs. *)
Lemma SJF_drains_shortest_first_witness :
  is_SJF SJF_example
  /\ ascending remainingTime
       (fst (drain (length (queue SJF_example)) SJF_example)).
Proof.
  split; [exact I|].
  apply (SJF_drains_shortest_first SJF_example). exact I.
Defined.

(** X12 on the priority scheduler of the aging example. *)
Lemma Priority_drains_most_urgent_first_witness :
  is_Priority 5 1 aging_example
  /\ ascending priority
       (fst (drain (length (queue aging_example)) aging_example)).
Proof.
  assert (H : is_Priority 5 1 aging_example) by (split; reflexivity).
  split; [exact H|].
  apply (Priority_drains_most_urgent_first 5 1 aging_example H).
Defined.

(** X13 on the priority scheduler of the aging example. *)
Lemma getNextJob_removes_one_witness :
  queue aging_example <> []
  /\ S (length (queue (snd (getNextJob aging_example))))
     = length (queue aging_example).
Proof.
  assert (H : queue aging_example <> []) by discriminate.
  split; [exact H|].
  apply (getNextJob_removes_one aging_example H).
Defined.

(** X14 on a new SJF scheduler. *)
Lemma addJob_getNextJob_witness :
  queue new_SJFScheduler = []
  /\ fst (getNextJob (addJob (Job_of_id 1 0 4 0) new_SJFScheduler))
     = Job_of_id 1 0 4 0.
Proof.
  split; [vm_compute; reflexivity|].
  apply (addJob_getNextJob new_SJFScheduler (Job_of_id 1 0 4 0)).
  vm_compute; reflexivity.
Defined.

(** X15: a job of priority 2 aged three times with increment 1 ends at
    priority 0. *)
Lemma aging_accumulates_witness :
  0 <= 1 /\ 0 <= priority (Job_of_id 1 0 3 2)
  /\ Forall (fun now => 5 < now - arrivalTime (Job_of_id 1 0 3 2))
            [10; 11; 12]
  /\ aged_at [10; 11; 12] 5 1 (Job_of_id 1 0 3 2)
     = set_priority (Z.max 0 (priority (Job_of_id 1 0 3 2)
                              - Z.of_nat (length [10; 11; 12]) * 1))
         (Job_of_id 1 0 3 2).
Proof.
  assert (H1 : 0 <= 1) by lia.
  assert (H2 : 0 <= priority (Job_of_id 1 0 3 2)) by (simpl; lia).
  assert (H3 : Forall (fun now => 5 < now - arrivalTime (Job_of_id 1 0 3 2))
                      [10; 11; 12]).
  { repeat constructor; simpl; lia. }
  split; [exact H1|]. split; [exact H2|]. split; [exact H3|].
  apply (aging_accumulates [10; 11; 12] 5 1 (Job_of_id 1 0 3 2) H1 H2).
  exact H3.
Defined.

(** X16 on the first iteration of the example under FCFS. *)
Lemma fifo_tick_is_round_robin_witness :
  is_fifo (scheduler (new_Simulator new_FCFSScheduler two_jobs))
  /\ queue (scheduler (tick insertion_sort
                         (new_Simulator new_FCFSScheduler two_jobs)))
     = [execute 0 (Job_of_id 1 0 4 0)].
Proof.
  split; [exact I|].
  apply (fifo_tick_is_round_robin insertion_sort
           (new_Simulator new_FCFSScheduler two_jobs)).
  exact I.
Defined.

(** X17 on the priority scheduler of the aging example. *)
Lemma setJobs_starts_afresh_witness :
  scheduledJobs (setJobs insertion_sort two_jobs aging_example) = []
  /\ Permutation two_jobs
       (queue (setJobs insertion_sort two_jobs aging_example)).
Proof.
  destruct (setJobs_starts_afresh insertion_sort insertion_sort_permutation
              insertion_sort_sorted two_jobs aging_example)
    as (_ & H1 & _ & H2 & _).
  split; [exact H1|exact H2].
Defined.

(** X18 on the SJF scheduler holding the two jobs. *)
Lemma SJF_schedule_then_front_witness :
  is_SJF SJF_example
  /\ sorted_by remainingTime (queue (schedule insertion_sort 0 SJF_example)).
Proof.
  split; [exact I|].
  apply (SJF_schedule_then_front insertion_sort insertion_sort_permutation
           insertion_sort_sorted 0 SJF_example).
  exact I.
Defined.

(** X19 on the two jobs of the example. *)
Lemma menu_ids_stay_distinct_witness :
  StronglySorted Z.lt (map jobId (jobs ui_two_jobs_SJF))
  /\ NoDup (map jobId (jobs ui_two_jobs_SJF)).
Proof.
  assert (H : StronglySorted Z.lt (map jobId (jobs ui_two_jobs_SJF))).
  { repeat constructor. }
  split; [exact H|].
  apply (menu_ids_stay_distinct ui_two_jobs_SJF H).
Defined.

(** X20 on the session of the example, from a new controller. *)
Lemma menu_session_sound_witness :
  session_invariant new_UIController
  /\ valid_session menu_example new_UIController
  /\ session_invariant (session menu_example new_UIController).
Proof.
  assert (H1 : session_invariant new_UIController).
  { unfold session_invariant, new_UIController; simpl.
    repeat split; try lia; constructor. }
  assert (H2 : valid_session menu_example new_UIController).
  { simpl. repeat split; try lia. }
  split; [exact H1|]. split; [exact H2|].
  apply (menu_session_sound insertion_sort insertion_sort_permutation
           menu_example new_UIController H1 H2).
Defined.

(** X21 on the example under SJF, on a new scheduler. *)
Lemma timeline_fresh_witness :
  Forall constructed (jobs ui_two_jobs_SJF)
  /\ fresh_simulator ui_two_jobs_SJF sim_two_jobs_SJF
  /\ run insertion_sort 6 sim_two_jobs_SJF
     = Some (run_for insertion_sort 6 sim_two_jobs_SJF)
  /\ Z.of_nat (length (ganttChart (run_for insertion_sort 6 sim_two_jobs_SJF)))
     = total burstTime (jobs ui_two_jobs_SJF).
Proof.
  assert (H1 : Forall constructed (jobs ui_two_jobs_SJF)).
  { repeat constructor. }
  assert (H2 : fresh_simulator ui_two_jobs_SJF sim_two_jobs_SJF).
  { exists new_SJFScheduler. split; reflexivity. }
  split; [exact H1|]. split; [exact H2|]. split; [vm_compute; reflexivity|].
  apply (timeline_fresh insertion_sort insertion_sort_permutation
           ui_two_jobs_SJF sim_two_jobs_SJF 6
           (run_for insertion_sort 6 sim_two_jobs_SJF) H1 H2).
  vm_compute; reflexivity.
Defined.

(** X22 on the example under SJF, built by [createSimulator]. *)
Lemma timeline_createSimulator_witness :
  Forall constructed (jobs ui_two_jobs_SJF)
  /\ run insertion_sort 12 (createSimulator insertion_sort ui_two_jobs_SJF)
     = Some (run_for insertion_sort 12
               (createSimulator insertion_sort ui_two_jobs_SJF))
  /\ Z.of_nat
       (length (ganttChart
                  (run_for insertion_sort 12
                     (createSimulator insertion_sort ui_two_jobs_SJF))))
     = 2 * total burstTime (jobs ui_two_jobs_SJF).
Proof.
  assert (H1 : Forall constructed (jobs ui_two_jobs_SJF)).
  { repeat constructor. }
  split; [exact H1|]. split; [vm_compute; reflexivity|].
  apply (timeline_createSimulator insertion_sort insertion_sort_permutation
           ui_two_jobs_SJF 12
           (run_for insertion_sort 12
              (createSimulator insertion_sort ui_two_jobs_SJF)) H1).
  vm_compute; reflexivity.
Defined.

(** X23 on the job that arrives at time 5, on a new scheduler. *)
Lemma times_fresh_witness :
  Forall constructed (jobs ui_late_arrival)
  /\ fresh_simulator ui_late_arrival
       (new_Simulator new_FCFSScheduler (jobs ui_late_arrival))
  /\ Forall times_consistent
       (finishedJobs
          (run_for insertion_sort 6
             (new_Simulator new_FCFSScheduler (jobs ui_late_arrival)))).
Proof.
  assert (H1 : Forall constructed (jobs ui_late_arrival)).
  { repeat constructor. }
  assert (H2 : fresh_simulator ui_late_arrival
                 (new_Simulator new_FCFSScheduler (jobs ui_late_arrival))).
  { exists new_FCFSScheduler. split; reflexivity. }
  split; [exact H1|]. split; [exact H2|].
  apply (times_fresh insertion_sort insertion_sort_permutation
           ui_late_arrival
           (new_Simulator new_FCFSScheduler (jobs ui_late_arrival)) 6 H1 H2).
Defined.

(** X24 on the two jobs of the example. *)
Lemma save_load_round_trip_witness :
  Forall storable two_jobs
  /\ loadJobsFromCSV (Some (saveJobs two_jobs)) = map reloaded two_jobs.
Proof.
  assert (H : Forall storable two_jobs).
  { repeat constructor; unfold INT_MIN, INT_MAX; simpl; lia. }
  split; [exact H|].
  exact (proj1 (save_load_round_trip two_jobs H)).
Defined.

(** X26 on the job without work, under FCFS. *)
Lemma zero_burst_run_never_returns_witness :
  Forall constructed (jobs ui_zero_burst)
  /\ entry insertion_sort ui_zero_burst
       (createSimulator insertion_sort ui_zero_burst)
  /\ Exists (fun job => burstTime job <= 0) (jobs ui_zero_burst)
  /\ run insertion_sort 50 (createSimulator insertion_sort ui_zero_burst)
     = None.
Proof.
  assert (Hc : Forall constructed (jobs ui_zero_burst)).
  { repeat constructor. }
  assert (Hentry : entry insertion_sort ui_zero_burst
                     (createSimulator insertion_sort ui_zero_burst)).
  { left. reflexivity. }
  assert (Hex : Exists (fun job => burstTime job <= 0) (jobs ui_zero_burst)).
  { left. simpl. lia. }
  split; [exact Hc|]. split; [exact Hentry|]. split; [exact Hex|].
  exact (zero_burst_run_never_returns insertion_sort
           insertion_sort_permutation ui_zero_burst
           (createSimulator insertion_sort ui_zero_burst) 50
           Hc Hentry Hex).
Defined.
